(** * load_confounds: selection of fMRIprep confound regressors

    A shallow embedding of [load_confounds.py] and the properties of its
    strategy resolution and column-selection engine.

    Conventions of the embedding.
    - Python [str] is [string]; a Python list of strings is [list string].
    - A [raise] is the [Raise] branch of [result]; every function that can
      raise returns a [result], and an exception aborts the enclosing calls
      (the bind of the monad).
    - A pandas [DataFrame] is a record of column labels and of rows; rows are
      identified by position, as under the default [RangeIndex] that
      [read_csv], [pd.DataFrame()] and [pd.DataFrame(ndarray)] build.
    - [read_csv] and [PCA.fit_transform] are the two external collaborators;
      they are the fields of the class [Collaborators]. *)

From Stdlib Require Import List String Ascii Bool Arith ZArith QArith Lia.
From Stdlib Require Import DecimalString DecimalNat Permutation.
Import ListNotations.
Local Close Scope Q_scope.
Local Open Scope string_scope.
Local Open Scope list_scope.

Set Implicit Arguments.

(* ================================================================== *)
(** * Part I. Definitions *)
(* ================================================================== *)

(** ** Exceptions *)

(** One constructor per [raise] of the module (all of them are Python
    [ValueError]s), and the exceptions of the runtime and of the
    collaborators that the modelled paths can meet. *)
Inductive error : Type :=
| ParamNotFound (par : string)          (* _check_params *)
| KeywordsNotList                       (* _find_confounds, isinstance test *)
| KeyNotFound (key : string)            (* _find_confounds, no match *)
| StrategyNotSupported (strategy : string)   (* _sanitize_strategy, preset *)
| ConfoundNotSupported (conf : string)  (* _sanitize_strategy, custom list *)
| StrategyBadType                       (* _sanitize_strategy, else branch *)
| InvalidInputType                      (* _sanitize_confounds *)
| KeyError (label : string)             (* pandas: df[[..]] on a missing label *)
| IndexError                            (* split(..)[1] without a second part *)
| ExternalError (msg : string).         (* read_csv, PCA.fit_transform *)

(** The text of each [ValueError] of the module, as its f-string builds it. *)
Definition message (e : error) : string :=
  match e with
  | ParamNotFound par =>
      "The parameter " ++ par ++
      " cannot be found in the available confounds. You may want to use a different denoising strategy'"
  | KeywordsNotList => "keywords should be a list"
  | KeyNotFound key => "could not find any confound with the key " ++ key
  | StrategyNotSupported strategy => "strategy " ++ strategy ++ " is not supported"
  | ConfoundNotSupported conf => conf ++ " is not a supported type of confounds."
  | StrategyBadType => "strategy needs to be a string or a list of strings"
  | InvalidInputType => "Invalid input type"
  | KeyError label => label
  | IndexError => "list index out of range"
  | ExternalError msg => msg
  end.

Inductive result (A : Type) : Type :=
| Ok (a : A)
| Raise (e : error).

Arguments Ok {A} a.
Arguments Raise {A} e.

Definition bind {A B : Type} (m : result A) (f : A -> result B) : result B :=
  match m with
  | Ok a => f a
  | Raise e => Raise e
  end.

Declare Scope result_scope.
Delimit Scope result_scope with result.
Notation "x <- m ;; k" := (bind m (fun x => k))
  (at level 61, m at next level, right associativity) : result_scope.
Notation "' pat <- m ;; k" := (bind m (fun x => match x with pat => k end))
  (at level 61, pat pattern, m at next level, right associativity) : result_scope.
Notation "m ;;; k" := (bind m (fun _ => k))
  (at level 61, right associativity) : result_scope.
Local Open Scope result_scope.

(** [[f(x) for x in xs]] where [f] may raise: the first exception wins. *)
Fixpoint mapM {A B : Type} (f : A -> result B) (xs : list A) : result (list B) :=
  match xs with
  | [] => Ok []
  | x :: xs' => y <- f x ;; ys <- mapM f xs' ;; Ok (y :: ys)
  end.

(** ** Python strings and lists *)

(** [x in l] for a list of strings. *)
Definition str_in_list (x : string) (l : list string) : bool :=
  existsb (String.eqb x) l.

(** [s.startswith(key)]. *)
Fixpoint startswith (key s : string) : bool :=
  match key, s with
  | EmptyString, _ => true
  | String _ _, EmptyString => false
  | String a key', String b s' => Ascii.eqb a b && startswith key' s'
  end.

(** [key in s] for two strings: [key] occurs in [s] as a substring. *)
Fixpoint str_in (key s : string) : bool :=
  startswith key s ||
  match s with
  | EmptyString => false
  | String _ s' => str_in key s'
  end.

(** [x < y] for two finite Python numbers. *)
Definition py_lt (x y : Q) : bool :=
  match (x ?= y)%Q with
  | Lt => true
  | _ => false
  end.

(** [str(n)] for a non-negative integer. *)
Definition str_of_nat (n : nat) : string :=
  NilZero.string_of_uint (Nat.to_uint n).

(** [s[-n:]]: the last [n] characters of [s], all of [s] when it is shorter. *)
Definition last_chars (n : nat) (s : string) : string :=
  substring (String.length s - n) n s.

(** [s.split(sep)] for a non-empty [sep]: the pieces between the occurrences
    of [sep], found from the left without overlap. [skip] counts the
    characters of a separator still to pass over, [cur] is the piece being
    read. *)
Fixpoint split_go (sep s : string) (skip : nat) (cur : string) : list string :=
  match s with
  | EmptyString => [cur]
  | String c s' =>
      match skip with
      | S k => split_go sep s' k cur
      | O =>
          if startswith sep s
          then cur :: split_go sep s' (String.length sep - 1) EmptyString
          else split_go sep s' 0 (cur ++ String c EmptyString)%string
      end
  end.

Definition split (s sep : string) : list string := split_go sep s 0 EmptyString.

(** [s.replace(old, new)] for a non-empty [old]: every occurrence of [old],
    found from the left without overlap, becomes [new]. *)
Fixpoint replace_go (old new s : string) (skip : nat) : string :=
  match s with
  | EmptyString => EmptyString
  | String c s' =>
      match skip with
      | S k => replace_go old new s' k
      | O =>
          if startswith old s
          then (new ++ replace_go old new s' (String.length old - 1))%string
          else String c (replace_go old new s' 0)
      end
  end.

Definition replace (s old new : string) : string := replace_go old new s 0.

(** ** _add_suffix *)

(** [params_full = params.copy()], then one pass over [params] appending to
    the copy. The accumulator of the fold is [params_full]. *)
Definition _add_suffix (params : list string) (model : string) : list string :=
  fold_left
    (fun params_full par =>
       let params_full :=
         if (model =? "derivatives") || (model =? "full")
         then params_full ++ [(par ++ "_derivative1")%string] else params_full in
       let params_full :=
         if (model =? "power2") || (model =? "full")
         then params_full ++ [(par ++ "_power2")%string] else params_full in
       if model =? "full"
       then params_full ++ [(par ++ "_derivative1_power2")%string] else params_full)
    params params.

(** ** _sanitize_strategy *)

(** The [strategy] argument: a [str], a [list] of strings, or any other
    Python value (a number, [None], ...), on which both [isinstance] tests
    fail. *)
Inductive strategy_arg : Type :=
| StrategyStr (name : string)
| StrategyList (confs : list string)
| StrategyOther.

Definition init_strategy : list (string * list string) :=
  [ ("minimal", ["motion"; "high_pass"; "wm_csf"]);
    ("minimal_glob", ["motion"; "high_pass"; "wm_csf"; "global"]) ].

Definition all_confounds : list string :=
  ["motion"; "high_pass"; "wm_csf"; "global"].

(** [d[key]] for a dict written as its list of items. *)
Fixpoint dict_get {V : Type} (d : list (string * V)) (key : string) : result V :=
  match d with
  | [] => Raise (KeyError key)
  | (k, v) :: d' => if k =? key then Ok v else dict_get d' key
  end.

(** [for conf in strategy: if not conf in all_confounds: raise ...]. *)
Fixpoint check_confounds (strategy : list string) : result unit :=
  match strategy with
  | [] => Ok tt
  | conf :: rest =>
      if negb (str_in_list conf all_confounds)
      then Raise (ConfoundNotSupported conf)
      else check_confounds rest
  end.

Definition _sanitize_strategy (strategy : strategy_arg) : result (list string) :=
  match strategy with
  | StrategyStr name =>
      if negb (str_in_list name (map fst init_strategy))
      then Raise (StrategyNotSupported name)
      else dict_get init_strategy name
  | StrategyList confs =>
      check_confounds confs ;;; Ok confs
  | StrategyOther => Raise StrategyBadType
  end.

(** ** pandas *)

Section Pandas.

(** The type of the numbers held in a table; a cell is a number or NaN. *)
Variable value : Type.

Definition cell : Type := option value.

Definition NaN : cell := None.

Definition notna (c : cell) : bool :=
  match c with Some _ => true | None => false end.

(** A table: the labels of its columns, in order, and its rows, in order.
    [L] is the type of the column labels: [string] for every table but the
    one [pd.DataFrame(ndarray)] builds, whose labels are [0 .. K-1]. *)
Record DataFrame (L : Type) : Type := {
  columns : list L;
  values : list (list cell)
}.

(** A two-dimensional numpy array: [shape[1]] and the rows. *)
Record ndarray : Type := {
  n_columns : nat;
  array : list (list cell)
}.

(** [pd.DataFrame()]. *)
Definition empty_frame : DataFrame string :=
  {| columns := []; values := [] |}.

(** [pd.DataFrame(a)] for an ndarray [a]: columns labelled [0 .. K-1]. *)
Definition frame_of_array (a : ndarray) : DataFrame nat :=
  {| columns := seq 0 (n_columns a); values := array a |}.

(** [df.values]. *)
Definition to_array {L : Type} (df : DataFrame L) : ndarray :=
  {| n_columns := List.length (columns df); array := values df |}.

(** [df.columns = labels] (the labels are as many as the columns were). *)
Definition set_columns {L L' : Type} (df : DataFrame L) (labels : list L')
  : DataFrame L' :=
  {| columns := labels; values := values df |}.

(** The positions, from [i] on, of the columns labelled [name]. *)
Fixpoint positions_from (i : nat) (name : string) (cols : list string)
  : list nat :=
  match cols with
  | [] => []
  | c :: cols' =>
      (if c =? name then [i] else []) ++ positions_from (S i) name cols'
  end.

Definition positions (name : string) (cols : list string) : list nat :=
  positions_from 0 name cols.

(** The cells of a row at the positions [sel], in the order of [sel]. *)
Definition take (sel : list nat) (row : list cell) : list cell :=
  map (fun i => nth i row NaN) sel.

(** [df[names]] for a list of labels: for each name in turn, the columns
    that carry it, rows kept; a [KeyError] when a name labels no column. *)
Definition getitem (df : DataFrame string) (names : list string)
  : result (DataFrame string) :=
  match filter (fun n => negb (str_in_list n (columns df))) names with
  | missing :: _ => Raise (KeyError missing)
  | [] =>
      let sel := flat_map (fun n => positions n (columns df)) names in
      Ok {| columns := map (fun i => nth i (columns df) EmptyString) sel;
            values := map (take sel) (values df) |}
  end.

(** [df.dropna()]: the rows without a missing value. *)
Definition dropna {L : Type} (df : DataFrame L) : DataFrame L :=
  {| columns := columns df;
     values := filter (forallb notna) (values df) |}.

(** Row [i] of [df], or a row of NaN when [df] has no such row. *)
Definition row_or_nan {L : Type} (df : DataFrame L) (i : nat) : list cell :=
  nth i (values df) (repeat NaN (List.length (columns df))).

(** [pd.concat([a, b], axis=1)]: the columns of [a], then those of [b];
    the rows are matched by position, the shorter table filled with NaN. *)
Definition concat (a b : DataFrame string) : DataFrame string :=
  {| columns := columns a ++ columns b;
     values := map (fun i => row_or_nan a i ++ row_or_nan b i)
                   (seq 0 (Nat.max (List.length (values a)) (List.length (values b)))) |}.

End Pandas.

Arguments NaN {value}.
Arguments empty_frame {value}.

(** ** The external collaborators *)

(** [pd.read_csv(path, delimiter="\t", encoding="utf-8")] and
    [PCA(n_components=n).fit_transform(X)]. Both may raise. *)
Class Collaborators (value : Type) : Type := {
  read_csv : string -> result (DataFrame value string);
  fit_transform : Q -> ndarray value -> result (ndarray value)
}.

(** ** The functions of load_confounds.py *)

Section Source.

Context {value : Type} `{Collaborators value}.

Local Abbreviation table := (DataFrame value string).

(** *** _check_params *)

(** [for par in params: if not par in confounds_raw.columns: raise ...]. *)
Fixpoint _check_params (confounds_raw : table) (params : list string)
  : result unit :=
  match params with
  | [] => Ok tt
  | par :: rest =>
      if negb (str_in_list par (columns confounds_raw))
      then Raise (ParamNotFound par)
      else _check_params confounds_raw rest
  end.

(** *** _find_confounds *)

(** The [keywords] argument: a [list] of strings, or any other value, on
    which [isinstance(keywords, list)] fails. *)
Inductive keywords_arg : Type :=
| KeywordList (keys : list string)
| KeywordsOther.

(** The inner loop, over the columns; its state is [list_confounds] and
    [key_found]. *)
Definition scan_columns (key : string) (cols : list string)
    (state : list string * bool) : list string * bool :=
  fold_left
    (fun '(list_confounds, key_found) col =>
       if str_in key col
       then (list_confounds ++ [col], true)
       else (list_confounds, key_found))
    cols state.

(** The outer loop, over the keywords. *)
Fixpoint find_loop (cols : list string) (keywords : list string)
    (list_confounds : list string) : result (list string) :=
  match keywords with
  | [] => Ok list_confounds
  | key :: rest =>
      let '(list_confounds, key_found) :=
        scan_columns key cols (list_confounds, false) in
      if negb key_found
      then Raise (KeyNotFound key)
      else find_loop cols rest list_confounds
  end.

Definition _find_confounds (confounds_raw : table) (keywords : keywords_arg)
  : result (list string) :=
  match keywords with
  | KeywordsOther => Raise KeywordsNotList
  | KeywordList keys => find_loop (columns confounds_raw) keys []
  end.

(** *** The category loaders *)

Definition _load_global (confounds_raw : table) (global_signal : string)
  : result table :=
  let global_params := _add_suffix ["global_signal"] global_signal in
  _check_params confounds_raw global_params ;;;
  getitem confounds_raw global_params.

Definition _load_wm_csf (confounds_raw : table) (wm_csf : string)
  : result table :=
  let wm_csf_params := _add_suffix ["csf"; "white_matter"] wm_csf in
  _check_params confounds_raw wm_csf_params ;;;
  getitem confounds_raw wm_csf_params.

Definition _load_high_pass (confounds_raw : table) : result table :=
  high_pass_params <- _find_confounds confounds_raw (KeywordList ["cosine"]) ;;
  getitem confounds_raw high_pass_params.

(** [motion = motion.dropna()], the decomposition, then the component
    columns renamed [motion_pca_1 .. motion_pca_K]. *)
Definition _pca_motion (motion : table) (n_components : Q) : result table :=
  let motion := dropna motion in
  transformed <- fit_transform n_components (to_array motion) ;;
  let motion_pca := frame_of_array transformed in
  let motion_pca :=
    set_columns motion_pca
      (map (fun col => ("motion_pca_" ++ str_of_nat (col + 1))%string)
           (columns motion_pca)) in
  Ok motion_pca.

Definition motion_basic : list string :=
  ["trans_x"; "trans_y"; "trans_z"; "rot_x"; "rot_y"; "rot_z"].

(** [pca_motion] is a finite Python number, compared with 0 and with 1. *)
Definition _load_motion (confounds_raw : table) (motion : string)
    (pca_motion : Q) : result table :=
  let motion_params := _add_suffix motion_basic motion in
  _check_params confounds_raw motion_params ;;;
  confounds_motion <- getitem confounds_raw motion_params ;;
  if py_lt 0%Q pca_motion && py_lt pca_motion 1%Q
  then _pca_motion confounds_motion pca_motion
  else Ok confounds_motion.

(** *** _confounds2df *)

(** One raw input: the path of a file, or a table. *)
Inductive input : Type :=
| Path (path : string)
| Frame (df : table).

Definition _confounds2df (confounds_raw : input) : result table :=
  match confounds_raw with
  | Frame df => Ok df
  | Path path =>
      path <-
        (if str_in "nii" (last_chars 6 path)
         then
           match nth_error (split path "space-") 1 with
           | None => Raise IndexError
           | Some rest =>
               let suffix := ("_space-" ++ rest)%string in
               Ok (replace path suffix "_desc-confounds_regressors.tsv")
           end
         else Ok path) ;;
      read_csv path
  end.

(** *** _sanitize_confounds *)

(** The [confounds_raw] argument of the entry point: one input, a list of
    inputs, or any other value. *)
Inductive confounds_arg : Type :=
| Single (one : input)
| Many (several : list input)
| OtherInput.

Definition _sanitize_confounds (confounds_raw : confounds_arg)
  : result (list input * bool) :=
  match confounds_raw with
  | Single one => Ok ([one], true)
  | Many several => Ok (several, false)
  | OtherInput => Raise InvalidInputType
  end.

(** *** _load_confounds_single *)

Definition _load_confounds_single (confounds_raw : input)
    (strategy : strategy_arg) (motion : string) (pca_motion : Q)
    (wm_csf global_signal : string) : result table :=
  confounds_raw <- _confounds2df confounds_raw ;;
  strategy <- _sanitize_strategy strategy ;;
  let confounds := empty_frame in
  confounds <-
    (if str_in_list "motion" strategy
     then confounds_motion <- _load_motion confounds_raw motion pca_motion ;;
          Ok (concat confounds confounds_motion)
     else Ok confounds) ;;
  confounds <-
    (if str_in_list "high_pass" strategy
     then confounds_high_pass <- _load_high_pass confounds_raw ;;
          Ok (concat confounds confounds_high_pass)
     else Ok confounds) ;;
  confounds <-
    (if str_in_list "wm_csf" strategy
     then confounds_wm_csf <- _load_wm_csf confounds_raw wm_csf ;;
          Ok (concat confounds confounds_wm_csf)
     else Ok confounds) ;;
  confounds <-
    (if str_in_list "global" strategy
     then confounds_global_signal <- _load_global confounds_raw global_signal ;;
          Ok (concat confounds confounds_global_signal)
     else Ok confounds) ;;
  Ok confounds.

(** *** load_confounds *)

(** What the entry point returns: one table, or a list of tables. *)
Inductive output : Type :=
| OneFrame (df : table)
| FrameList (dfs : list table).

(** [for file in confounds_raw: confounds_out.append(...)]. *)
Fixpoint load_loop (files : list input) (confounds_out : list table)
    (strategy : strategy_arg) (motion : string) (pca_motion : Q)
    (wm_csf global_signal : string) : result (list table) :=
  match files with
  | [] => Ok confounds_out
  | file :: rest =>
      df <- _load_confounds_single file strategy motion pca_motion
              wm_csf global_signal ;;
      load_loop rest (confounds_out ++ [df]) strategy motion pca_motion
        wm_csf global_signal
  end.

Definition load_confounds (confounds_raw : confounds_arg)
    (strategy : strategy_arg) (motion : string) (pca_motion : Q)
    (wm_csf global_signal : string) : result output :=
  '(confounds_raw, flag_single) <- _sanitize_confounds confounds_raw ;;
  confounds_out <- load_loop confounds_raw [] strategy motion pca_motion
                     wm_csf global_signal ;;
  if (flag_single : bool)
  then match confounds_out with
       | first :: _ => Ok (OneFrame first)
       | [] => Raise IndexError
       end
  else Ok (FrameList confounds_out).

(** The defaults of the signature: [strategy="minimal"], [motion="full"],
    [pca_motion=1], [wm_csf="basic"], [global_signal="basic"]. *)
Definition load_confounds_default (confounds_raw : confounds_arg)
  : result output :=
  load_confounds confounds_raw (StrategyStr "minimal") "full" 1%Q "basic" "basic".

End Source.

(** ** Tables as objects of a store *)

(** The same functions once more, with the tables as Python objects: a
    table is named by a reference into a store, an operation of pandas that
    returns a table allocates a new object, and the assignment to
    [df.columns] updates an object in place. *)
Module Store.

Section Objects.

Context {value : Type} `{Collaborators value}.

(** An object: a table with string labels, or the table that
    [pd.DataFrame(ndarray)] builds, with the labels [0 .. K-1]. *)
Inductive object : Type :=
| Named (df : DataFrame value string)
| Ranged (df : DataFrame value nat).

Definition store : Type := list object.

(** The identity of an object: its position in the store. *)
Definition ref : Type := nat.

(** A computation reads and extends the store, and returns or raises. *)
Definition M (A : Type) : Type := store -> result A * store.

Definition ret {A : Type} (a : A) : M A := fun s => (Ok a, s).

Definition raise {A : Type} (e : error) : M A := fun s => (Raise e, s).

Definition lift {A : Type} (r : result A) : M A := fun s => (r, s).

Definition bind {A B : Type} (m : M A) (f : A -> M B) : M B :=
  fun s =>
    match m s with
    | (Ok a, s') => f a s'
    | (Raise e, s') => (Raise e, s')
    end.

Declare Scope store_scope.
Delimit Scope store_scope with store.
Notation "x <- m ;; k" := (bind m (fun x => k))
  (at level 61, m at next level, right associativity) : store_scope.
Notation "m ;;; k" := (bind m (fun _ => k))
  (at level 61, right associativity) : store_scope.
Local Open Scope store_scope.

(** A new object, at the end of the store. *)
Definition new (o : object) : M ref :=
  fun s => (Ok (List.length s), s ++ [o]).

(** The object at [r], replaced. *)
Fixpoint update (s : store) (r : ref) (o : object) : store :=
  match s, r with
  | [], _ => []
  | _ :: s', O => o :: s'
  | o' :: s', S r' => o' :: update s' r' o
  end.

(** The table at [r]. A reference that names no such table cannot be built
    by the functions below; reading it is an error. *)
Definition read (r : ref) : M (DataFrame value string) :=
  fun s =>
    match nth_error s r with
    | Some (Named df) => (Ok df, s)
    | _ => (Raise (ExternalError "not a table"), s)
    end.

Definition read_ranged (r : ref) : M (DataFrame value nat) :=
  fun s =>
    match nth_error s r with
    | Some (Ranged df) => (Ok df, s)
    | _ => (Raise (ExternalError "not a table"), s)
    end.

(** [df.columns = labels], on the table of [pd.DataFrame(ndarray)]: the
    object at [r] is updated in place. *)
Definition assign_columns (r : ref) (labels : list string) : M unit :=
  fun s =>
    match nth_error s r with
    | Some (Ranged df) => (Ok tt, update s r (Named (set_columns df labels)))
    | _ => (Raise (ExternalError "not a table"), s)
    end.

(** [df[names]]: a new table. *)
Definition getitem_ref (r : ref) (names : list string) : M ref :=
  df <- read r ;;
  selected <- lift (getitem df names) ;;
  new (Named selected).

(** [df.dropna()]: a new table. *)
Definition dropna_ref (r : ref) : M ref :=
  df <- read r ;;
  new (Named (dropna df)).

(** [pd.concat([a, b], axis=1)]: a new table. *)
Definition concat_ref (a b : ref) : M ref :=
  df_a <- read a ;;
  df_b <- read b ;;
  new (Named (concat df_a df_b)).

(** [df.columns]. *)
Definition get_columns (r : ref) : M (list string) :=
  df <- read r ;;
  ret (columns df).

Fixpoint _check_params (confounds_raw : ref) (params : list string) : M unit :=
  match params with
  | [] => ret tt
  | par :: rest =>
      cols <- get_columns confounds_raw ;;
      if negb (str_in_list par cols)
      then raise (ParamNotFound par)
      else _check_params confounds_raw rest
  end.

Fixpoint find_loop (confounds_raw : ref) (keywords : list string)
    (list_confounds : list string) : M (list string) :=
  match keywords with
  | [] => ret list_confounds
  | key :: rest =>
      cols <- get_columns confounds_raw ;;
      let '(list_confounds, key_found) :=
        scan_columns key cols (list_confounds, false) in
      if negb key_found
      then raise (KeyNotFound key)
      else find_loop confounds_raw rest list_confounds
  end.

Definition _find_confounds (confounds_raw : ref) (keywords : keywords_arg)
  : M (list string) :=
  match keywords with
  | KeywordsOther => raise KeywordsNotList
  | KeywordList keys => find_loop confounds_raw keys []
  end.

Definition _load_global (confounds_raw : ref) (global_signal : string) : M ref :=
  let global_params := _add_suffix ["global_signal"] global_signal in
  _check_params confounds_raw global_params ;;;
  getitem_ref confounds_raw global_params.

Definition _load_wm_csf (confounds_raw : ref) (wm_csf : string) : M ref :=
  let wm_csf_params := _add_suffix ["csf"; "white_matter"] wm_csf in
  _check_params confounds_raw wm_csf_params ;;;
  getitem_ref confounds_raw wm_csf_params.

Definition _load_high_pass (confounds_raw : ref) : M ref :=
  high_pass_params <- _find_confounds confounds_raw (KeywordList ["cosine"]) ;;
  getitem_ref confounds_raw high_pass_params.

Definition _pca_motion (motion : ref) (n_components : Q) : M ref :=
  motion <- dropna_ref motion ;;
  X <- read motion ;;
  transformed <- lift (fit_transform n_components (to_array X)) ;;
  motion_pca <- new (Ranged (frame_of_array transformed)) ;;
  df <- read_ranged motion_pca ;;
  assign_columns motion_pca
    (map (fun col => ("motion_pca_" ++ str_of_nat (col + 1))%string)
         (columns df)) ;;;
  ret motion_pca.

Definition _load_motion (confounds_raw : ref) (motion : string)
    (pca_motion : Q) : M ref :=
  let motion_params := _add_suffix motion_basic motion in
  _check_params confounds_raw motion_params ;;;
  confounds_motion <- getitem_ref confounds_raw motion_params ;;
  if py_lt 0%Q pca_motion && py_lt pca_motion 1%Q
  then _pca_motion confounds_motion pca_motion
  else ret confounds_motion.

(** One raw input: the path of a file, or a table of the store. *)
Inductive input : Type :=
| Path (path : string)
| Frame (df : ref).

Definition _confounds2df (confounds_raw : input) : M ref :=
  match confounds_raw with
  | Frame df => ret df
  | Path path =>
      path <-
        lift (if str_in "nii" (last_chars 6 path)
              then
                match nth_error (split path "space-") 1 with
                | None => Raise IndexError
                | Some rest =>
                    let suffix := ("_space-" ++ rest)%string in
                    Ok (replace path suffix "_desc-confounds_regressors.tsv")
                end
              else Ok path) ;;
      df <- lift (read_csv path) ;;
      new (Named df)
  end.

Inductive confounds_arg : Type :=
| Single (one : input)
| Many (several : list input)
| OtherInput.

Definition _sanitize_confounds (confounds_raw : confounds_arg)
  : M (list input * bool) :=
  match confounds_raw with
  | Single one => ret ([one], true)
  | Many several => ret (several, false)
  | OtherInput => raise InvalidInputType
  end.

Definition _load_confounds_single (confounds_raw : input)
    (strategy : strategy_arg) (motion : string) (pca_motion : Q)
    (wm_csf global_signal : string) : M ref :=
  confounds_raw <- _confounds2df confounds_raw ;;
  strategy <- lift (_sanitize_strategy strategy) ;;
  confounds <- new (Named empty_frame) ;;
  confounds <-
    (if str_in_list "motion" strategy
     then confounds_motion <- _load_motion confounds_raw motion pca_motion ;;
          concat_ref confounds confounds_motion
     else ret confounds) ;;
  confounds <-
    (if str_in_list "high_pass" strategy
     then confounds_high_pass <- _load_high_pass confounds_raw ;;
          concat_ref confounds confounds_high_pass
     else ret confounds) ;;
  confounds <-
    (if str_in_list "wm_csf" strategy
     then confounds_wm_csf <- _load_wm_csf confounds_raw wm_csf ;;
          concat_ref confounds confounds_wm_csf
     else ret confounds) ;;
  confounds <-
    (if str_in_list "global" strategy
     then confounds_global_signal <- _load_global confounds_raw global_signal ;;
          concat_ref confounds confounds_global_signal
     else ret confounds) ;;
  ret confounds.

Inductive output : Type :=
| OneFrame (df : ref)
| FrameList (dfs : list ref).

Fixpoint load_loop (files : list input) (confounds_out : list ref)
    (strategy : strategy_arg) (motion : string) (pca_motion : Q)
    (wm_csf global_signal : string) : M (list ref) :=
  match files with
  | [] => ret confounds_out
  | file :: rest =>
      df <- _load_confounds_single file strategy motion pca_motion
              wm_csf global_signal ;;
      load_loop rest (confounds_out ++ [df]) strategy motion pca_motion
        wm_csf global_signal
  end.

Definition load_confounds (confounds_raw : confounds_arg)
    (strategy : strategy_arg) (motion : string) (pca_motion : Q)
    (wm_csf global_signal : string) : M output :=
  sanitized <- _sanitize_confounds confounds_raw ;;
  let '(confounds_raw, flag_single) := sanitized in
  confounds_out <- load_loop confounds_raw [] strategy motion pca_motion
                     wm_csf global_signal ;;
  if (flag_single : bool)
  then match confounds_out with
       | first :: _ => ret (OneFrame first)
       | [] => raise IndexError
       end
  else ret (FrameList confounds_out).

End Objects.

End Store.

(** ** Definitions used to state the properties *)

(** The names [_add_suffix] appends for one base name. *)
Definition suffixes (model par : string) : list string :=
  (if (model =? "derivatives") || (model =? "full")
   then [(par ++ "_derivative1")%string] else [])
  ++ (if (model =? "power2") || (model =? "full")
      then [(par ++ "_power2")%string] else [])
  ++ (if model =? "full"
      then [(par ++ "_derivative1_power2")%string] else []).

(** The expansion as the specification words it (NameExpander): the bases,
    then [_derivative1] for all bases, then [_power2] for all bases, then
    [_derivative1_power2] for all bases. *)
Definition expand_grouped (params : list string) (model : string) : list string :=
  params
  ++ (if (model =? "derivatives") || (model =? "full")
      then map (fun par => (par ++ "_derivative1")%string) params else [])
  ++ (if (model =? "power2") || (model =? "full")
      then map (fun par => (par ++ "_power2")%string) params else [])
  ++ (if model =? "full"
      then map (fun par => (par ++ "_derivative1_power2")%string) params else []).

(** The columns of a table that a keyword matches, in the table's order. *)
Definition matching (key : string) (cols : list string) : list string :=
  filter (str_in key) cols.

(** The canonical order of the categories in the assembler. *)
Definition canonical_order : list string :=
  ["motion"; "high_pass"; "wm_csf"; "global"].

(** The categories of a resolved strategy, in canonical order. *)
Definition invoked (strategy : list string) : list string :=
  filter (fun category => str_in_list category strategy) canonical_order.

Section Statements.

Context {value : Type} `{Collaborators value}.

Local Abbreviation table := (DataFrame value string).

(** The loader of a category, with the configuration of the call. *)
Definition loader (confounds_raw : table) (motion : string) (pca_motion : Q)
    (wm_csf global_signal : string) (category : string) : result table :=
  if category =? "motion" then _load_motion confounds_raw motion pca_motion
  else if category =? "high_pass" then _load_high_pass confounds_raw
  else if category =? "wm_csf" then _load_wm_csf confounds_raw wm_csf
  else _load_global confounds_raw global_signal.

(** Running the loaders of [categories] one after the other, each output
    concatenated to the right of [confounds]. *)
Fixpoint run_loaders (load : string -> result table) (categories : list string)
    (confounds : table) : result table :=
  match categories with
  | [] => Ok confounds
  | category :: rest =>
      sub <- load category ;;
      run_loaders load rest (concat confounds sub)
  end.

(** The position of the first column labelled [name]. *)
Fixpoint index_of (name : string) (cols : list string) : nat :=
  match cols with
  | [] => 0
  | c :: cols' => if c =? name then 0 else S (index_of name cols')
  end.

(** [df[name].values]: the cells of the column labelled [name]. *)
Definition column (df : table) (name : string) : list (cell value) :=
  map (fun row => nth (index_of name (columns df)) row NaN) (values df).

(** The table that the reference [r] names in the store [s]. *)
Definition table_at (s : Store.store) (r : Store.ref) : option table :=
  match nth_error s r with
  | Some (Store.Named df) => Some df
  | _ => None
  end.

(** The input, with its table, that an input of the store model stands for. *)
Definition input_in (s : Store.store) (file : Store.input) : option input :=
  match file with
  | Store.Path path => Some (Path path)
  | Store.Frame r =>
      match table_at s r with
      | Some df => Some (Frame df)
      | None => None
      end
  end.

Fixpoint inputs_in (s : Store.store) (files : list Store.input)
  : option (list input) :=
  match files with
  | [] => Some []
  | file :: rest =>
      match input_in s file, inputs_in s rest with
      | Some file', Some rest' => Some (file' :: rest')
      | _, _ => None
      end
  end.

Definition arg_in (s : Store.store) (confounds_raw : Store.confounds_arg)
  : option confounds_arg :=
  match confounds_raw with
  | Store.Single one =>
      match input_in s one with
      | Some one' => Some (Single one')
      | None => None
      end
  | Store.Many several =>
      match inputs_in s several with
      | Some several' => Some (Many several')
      | None => None
      end
  | Store.OtherInput => Some OtherInput
  end.

(** A computation that returns a table runs as the function [pure] says:
    the store is extended, never changed; when [pure] is a table, the
    computation returns a reference, not below [n], to that table in the
    extended store; when [pure] is an exception, the computation raises
    it. *)
Definition loaded (n : nat) (m : Store.M Store.ref) (s : Store.store)
    (pure : result table) : Prop :=
  exists fresh,
    snd (m s) = s ++ fresh
    /\ match pure with
       | Ok df =>
           exists r, fst (m s) = Ok r /\ n <= r
                     /\ table_at (s ++ fresh) r = Some df
       | Raise e => fst (m s) = Raise e
       end.

End Statements.

(** ** Shape and content of a table *)

Section Shapes.

Context {value : Type}.

(** Every row of the table has one cell per column. *)
Definition rectangular {L : Type} (df : DataFrame value L) : Prop :=
  Forall (fun row => List.length row = List.length (columns df)) (values df).

(** Under each of its labels, [out] has the cells [df] has under it. *)
Definition same_cells (df out : DataFrame value string) : Prop :=
  forall name, In name (columns out) -> column out name = column df name.

(** The names of the columns that the loader of a category selects. *)
Definition selected_names (df : DataFrame value string)
    (motion wm_csf global_signal category : string) : list string :=
  if category =? "motion" then _add_suffix motion_basic motion
  else if category =? "high_pass" then matching "cosine" (columns df)
  else if category =? "wm_csf" then _add_suffix ["csf"; "white_matter"] wm_csf
  else _add_suffix ["global_signal"] global_signal.

End Shapes.

(** ** The values passed as keywords *)

(** A Python value that a caller may pass as [keywords]: a list of strings
    such as [["cosine"]], a tuple of strings such as [("cosine",)], a string
    such as ["cosine"], or [None]. *)
Inductive keywords_value : Type :=
| KeywordsOfList (keys : list string)
| KeywordsOfTuple (keys : list string)
| KeywordsOfStr (key : string)
| KeywordsOfNone.

(** [isinstance(v, collections.abc.Sequence)]: lists, tuples and strings are
    Python sequences. *)
Definition is_sequence (v : keywords_value) : bool :=
  match v with
  | KeywordsOfList _ | KeywordsOfTuple _ | KeywordsOfStr _ => true
  | KeywordsOfNone => false
  end.

(** [isinstance(v, list)], the test of [_find_confounds]. *)
Definition is_list (v : keywords_value) : bool :=
  match v with
  | KeywordsOfList _ => true
  | _ => false
  end.

(** The value as [_find_confounds] tells it apart: a list, or a value on
    which [isinstance(keywords, list)] fails. *)
Definition keywords_arg_of (v : keywords_value) : keywords_arg :=
  match v with
  | KeywordsOfList keys => KeywordList keys
  | _ => KeywordsOther
  end.

(** The exceptions that the module raises itself, each by
    [raise ValueError(...)]. *)
Definition is_ValueError (e : error) : bool :=
  match e with
  | ParamNotFound _ | KeywordsNotList | KeyNotFound _ | StrategyNotSupported _
  | ConfoundNotSupported _ | StrategyBadType | InvalidInputType => true
  | KeyError _ | IndexError | ExternalError _ => false
  end.

(** ** A test double for the collaborators *)

(** Integer cells; one file on disk; a decomposition that keeps the first
    column of its input. *)
Definition demo_table : DataFrame Z string :=
  {| columns := ["trans_x"; "trans_y"; "trans_z"; "rot_x"; "rot_y"; "rot_z";
                 "cosine00"; "cosine01"; "csf"; "white_matter"; "global_signal"];
     values := [ map Some [1; 2; 3; 4; 5; 6; 7; 8; 9; 10; 11]%Z;
                 [Some 12; None; Some 13; Some 14; Some 15; Some 16; Some 17;
                  Some 18; Some 19; Some 20; Some 21]%Z;
                 map Some [22; 23; 24; 25; 26; 27; 28; 29; 30; 31; 32]%Z ] |}.

#[export] Instance demo : Collaborators Z := {|
  read_csv path :=
    if path =? "sub-01_desc-confounds_regressors.tsv"
    then Ok demo_table
    else Raise (ExternalError "No such file or directory");
  fit_transform n_components X :=
    Ok {| n_columns := 1; array := map (firstn 1) (array X) |}
|}.

(** A table with the six basic motion columns only. *)
Definition basic_motion_table : DataFrame Z string :=
  {| columns := ["trans_x"; "trans_y"; "trans_z"; "rot_x"; "rot_y"; "rot_z"];
     values := [ map Some [1; 2; 3; 4; 5; 6]%Z;
                 map Some [7; 8; 9; 10; 11; 12]%Z ] |}.

(** A table with the tissue signals and all their derived columns. *)
Definition tissue_table : DataFrame Z string :=
  {| columns := ["csf"; "csf_derivative1"; "csf_power2"; "csf_derivative1_power2";
                 "white_matter"; "white_matter_derivative1"; "white_matter_power2";
                 "white_matter_derivative1_power2"];
     values := [ map Some [1; 2; 3; 4; 5; 6; 7; 8]%Z ] |}.

(** A table with two cosine columns and one motion column. *)
Definition cosine_table : DataFrame Z string :=
  {| columns := ["cosine00"; "cosine01"; "trans_x"];
     values := [ map Some [1; 2; 3]%Z; map Some [4; 5; 6]%Z ] |}.

(* ================================================================== *)
(** * Part II. Properties *)
(* ================================================================== *)

(** ** The result monad *)

Lemma bind_Ok_inv {A B : Type} (m : result A) (f : A -> result B) (b : B) :
  bind m f = Ok b -> exists a, m = Ok a /\ f a = Ok b.
Proof.
  destruct m as [a|e]; simpl; intros Hb; [exists a; auto | discriminate].
Qed.

Lemma mapM_Forall2 {A B : Type} (f : A -> result B) (xs : list A) (ys : list B) :
  mapM f xs = Ok ys <-> Forall2 (fun x y => f x = Ok y) xs ys.
Proof.
  revert ys; induction xs as [|x xs IH]; intros ys; simpl.
  - split; intros Hy.
    + injection Hy as <-; constructor.
    + inversion Hy; reflexivity.
  - split; intros Hy.
    + apply bind_Ok_inv in Hy as (y & Hx & Hy).
      apply bind_Ok_inv in Hy as (ys' & Hxs & Hy).
      injection Hy as <-. constructor; [exact Hx | apply IH, Hxs].
    + inversion Hy as [|? y ? ys' Hx Hxs]; subst.
      rewrite Hx; simpl. apply IH in Hxs; rewrite Hxs; reflexivity.
Qed.

(** ** Strings *)

Lemma str_in_list_In (x : string) (l : list string) :
  str_in_list x l = true <-> In x l.
Proof.
  unfold str_in_list; rewrite existsb_exists; split.
  - intros (y & Hy & Heq); apply String.eqb_eq in Heq; subst; exact Hy.
  - intros Hx; exists x; split; [exact Hx | apply String.eqb_refl].
Qed.

Lemma str_in_list_not_In (x : string) (l : list string) :
  str_in_list x l = false <-> ~ In x l.
Proof.
  rewrite <- str_in_list_In; destruct (str_in_list x l); split; congruence.
Qed.

Lemma append_empty_r (s : string) : (s ++ EmptyString)%string = s.
Proof. induction s as [|c s IH]; simpl; [|rewrite IH]; reflexivity. Qed.

Lemma startswith_spec (key s : string) :
  startswith key s = true <-> exists post, s = (key ++ post)%string.
Proof.
  revert s; induction key as [|a key IH]; intros s; simpl.
  - split; [intros _; exists s; reflexivity | reflexivity].
  - destruct s as [|b s].
    + split; [discriminate | intros (post & Hp); discriminate].
    + rewrite andb_true_iff, Ascii.eqb_eq, IH; split.
      * intros (-> & post & ->); exists post; reflexivity.
      * intros (post & Hp); injection Hp as -> ->; split; [reflexivity | exists post; reflexivity].
Qed.

(** [key in s] holds exactly when [s] is some text, then [key], then some
    text. *)
Lemma str_in_spec (key s : string) :
  str_in key s = true <-> exists pre post, s = (pre ++ key ++ post)%string.
Proof.
  induction s as [|c s IH].
  - simpl; rewrite orb_false_r, startswith_spec; split.
    + intros (post & Hp); exists EmptyString, post; exact Hp.
    + intros (pre & post & Hp); destruct pre; [exists post; exact Hp | discriminate].
  - cbn [str_in]; rewrite orb_true_iff, startswith_spec, IH; split.
    + intros [(post & Hp) | (pre & post & Hp)].
      * exists EmptyString, post; exact Hp.
      * exists (String c pre), post; simpl; rewrite Hp; reflexivity.
    + intros (pre & post & Hp); destruct pre as [|c' pre].
      * left; exists post; exact Hp.
      * right; injection Hp as -> ->; exists pre, post; reflexivity.
Qed.

(** ** _add_suffix *)

Lemma add_suffix_fold (model : string) (params acc : list string) :
  fold_left
    (fun params_full par =>
       let params_full :=
         if (model =? "derivatives") || (model =? "full")
         then params_full ++ [(par ++ "_derivative1")%string] else params_full in
       let params_full :=
         if (model =? "power2") || (model =? "full")
         then params_full ++ [(par ++ "_power2")%string] else params_full in
       if model =? "full"
       then params_full ++ [(par ++ "_derivative1_power2")%string] else params_full)
    params acc
  = acc ++ flat_map (suffixes model) params.
Proof.
  revert acc; induction params as [|par params IH]; intros acc; simpl.
  - rewrite app_nil_r; reflexivity.
  - rewrite IH; unfold suffixes.
    destruct ((model =? "derivatives") || (model =? "full"));
      destruct ((model =? "power2") || (model =? "full"));
      destruct (model =? "full"); simpl;
      repeat rewrite <- app_assoc; reflexivity.
Qed.

Lemma add_suffix_flat_map (params : list string) (model : string) :
  _add_suffix params model = params ++ flat_map (suffixes model) params.
Proof. apply add_suffix_fold. Qed.

Lemma flat_map_singleton {A B : Type} (f : A -> B) (l : list A) :
  flat_map (fun x => [f x]) l = map f l.
Proof. induction l as [|x l IH]; simpl; [|rewrite IH]; reflexivity. Qed.

Lemma flat_map_nil {A B : Type} (l : list A) :
  flat_map (fun _ : A => @nil B) l = [].
Proof. induction l as [|x l IH]; simpl; auto. Qed.

Lemma flat_map_triple_perm {A B : Type} (f g h : A -> B) (l : list A) :
  Permutation (flat_map (fun x => [f x; g x; h x]) l)
              (map f l ++ map g l ++ map h l).
Proof.
  induction l as [|x l IH]; simpl; [constructor|].
  constructor.
  apply Permutation_trans with (g x :: map f l ++ map g l ++ h x :: map h l).
  - constructor.
    apply Permutation_trans with (h x :: map f l ++ map g l ++ map h l).
    + constructor; exact IH.
    + rewrite app_assoc, (app_assoc (map f l)). apply Permutation_middle.
  - apply Permutation_middle.
Qed.

(** What [suffixes] is in each of the modes. *)
Lemma suffixes_cases (model : string) :
  (model = "full" /\
   suffixes model = fun par => [(par ++ "_derivative1")%string;
                                (par ++ "_power2")%string;
                                (par ++ "_derivative1_power2")%string])
  \/ (model = "derivatives" /\
      suffixes model = fun par => [(par ++ "_derivative1")%string])
  \/ (model = "power2" /\
      suffixes model = fun par => [(par ++ "_power2")%string])
  \/ (model <> "full" /\ model <> "derivatives" /\ model <> "power2" /\
      suffixes model = fun _ => []).
Proof.
  unfold suffixes.
  destruct (String.eqb_spec model "full") as [->|Hf]; [left; split; reflexivity|].
  destruct (String.eqb_spec model "derivatives") as [->|Hd];
    [right; left; split; reflexivity|].
  destruct (String.eqb_spec model "power2") as [->|Hp];
    [right; right; left; split; reflexivity|].
  right; right; right; repeat split; assumption.
Qed.

(** C1 (as amended). For every ordered list of base names and every mode,
    [_add_suffix] returns the base names first, in their order, and then, for
    each base name in turn, the suffixed names of that base ([_derivative1]
    under "derivatives" and "full", [_power2] under "power2" and "full",
    [_derivative1_power2] under "full"): the suffixed names are interleaved
    per base. They are the names of the grouped expansion in another order,
    and the two orders are the same whenever the mode is not "full" or there
    is at most one base. Mode "full" yields [4 * len(bases)] names and
    "basic" yields [len(bases)]; no mode raises. *)
Theorem add_suffix_interleaved (params : list string) (model : string) :
  _add_suffix params model = params ++ flat_map (suffixes model) params
  /\ firstn (List.length params) (_add_suffix params model) = params
  /\ Permutation (_add_suffix params model) (expand_grouped params model)
  /\ (model <> "full" \/ List.length params <= 1 ->
      _add_suffix params model = expand_grouped params model)
  /\ List.length (_add_suffix params "full") = 4 * List.length params
  /\ List.length (_add_suffix params "basic") = List.length params.
Proof.
  rewrite !add_suffix_flat_map.
  split; [reflexivity|].
  split; [rewrite firstn_app, Nat.sub_diag, firstn_all; simpl; apply app_nil_r|].
  split; [|split; [|split]].
  - apply Permutation_app_head. unfold expand_grouped.
    destruct (suffixes_cases model) as [(-> & E) | [(-> & E) | [(-> & E) | (Hf & Hd & Hp & E)]]];
      rewrite E; simpl.
    + apply flat_map_triple_perm.
    + rewrite flat_map_singleton, app_nil_r; apply Permutation_refl.
    + rewrite flat_map_singleton, app_nil_r; apply Permutation_refl.
    + apply String.eqb_neq in Hf, Hd, Hp. rewrite Hf, Hd, Hp; simpl.
      rewrite flat_map_nil; apply Permutation_refl.
  - intros Hcase. unfold expand_grouped. f_equal.
    destruct (suffixes_cases model) as [(-> & E) | [(-> & E) | [(-> & E) | (Hf & Hd & Hp & E)]]];
      rewrite E; simpl.
    + destruct Hcase as [Hne | Hlen]; [congruence|].
      destruct params as [|p [|q params]]; simpl in *; [reflexivity | reflexivity | lia].
    + rewrite flat_map_singleton, app_nil_r; reflexivity.
    + rewrite flat_map_singleton, app_nil_r; reflexivity.
    + apply String.eqb_neq in Hf, Hd, Hp. rewrite Hf, Hd, Hp; simpl.
      apply flat_map_nil.
  - rewrite length_app. replace (4 * List.length params) with (List.length params + 3 * List.length params) by lia.
    f_equal. induction params as [|p params IH]; simpl in *; [reflexivity | rewrite IH; lia].
  - rewrite length_app. change (suffixes "basic") with (fun _ : string => @nil string).
    rewrite flat_map_nil; simpl; lia.
Qed.

(** C1, witness: the two bases of the tissue loader under "power2". *)
Lemma add_suffix_interleaved_witness :
  _add_suffix ["csf"; "white_matter"] "power2"
  = expand_grouped ["csf"; "white_matter"] "power2".
Proof.
  apply (add_suffix_interleaved ["csf"; "white_matter"] "power2").
  left; discriminate.
Defined.

(** C1, counterexample: under "full" the tissue loader's names come
    interleaved per base, not grouped by suffix. *)
Lemma add_suffix_not_grouped :
  _add_suffix ["csf"; "white_matter"] "full"
  = ["csf"; "white_matter";
     "csf_derivative1"; "csf_power2"; "csf_derivative1_power2";
     "white_matter_derivative1"; "white_matter_power2";
     "white_matter_derivative1_power2"]
  /\ expand_grouped ["csf"; "white_matter"] "full"
     = ["csf"; "white_matter";
        "csf_derivative1"; "white_matter_derivative1";
        "csf_power2"; "white_matter_power2";
        "csf_derivative1_power2"; "white_matter_derivative1_power2"]
  /\ _add_suffix ["csf"; "white_matter"] "full"
     <> expand_grouped ["csf"; "white_matter"] "full".
Proof.
  split; [reflexivity|]. split; [reflexivity|].
  intros Heq; vm_compute in Heq; discriminate Heq.
Qed.

(** ** _sanitize_strategy *)

Lemma check_confounds_all (confs : list string) :
  Forall (fun conf => In conf all_confounds) confs ->
  check_confounds confs = Ok tt.
Proof.
  induction 1 as [|conf confs Hin _ IH]; cbn [check_confounds]; [reflexivity|].
  apply str_in_list_In in Hin; rewrite Hin; exact IH.
Qed.

Lemma check_confounds_first (before : list string) (conf : string)
    (after : list string) :
  Forall (fun c => In c all_confounds) before ->
  ~ In conf all_confounds ->
  check_confounds (before ++ conf :: after) = Raise (ConfoundNotSupported conf).
Proof.
  intros Hbefore Hconf;
    induction Hbefore as [|c before Hin _ IH]; cbn [check_confounds app].
  - apply str_in_list_not_In in Hconf; rewrite Hconf; reflexivity.
  - apply str_in_list_In in Hin; rewrite Hin; exact IH.
Qed.

(** C3. The two presets resolve to their fixed lists; a custom list whose
    entries are all in the closed set is returned as given; an unknown preset
    raises the unsupported-strategy error; a custom list with an entry
    outside the closed set raises the unsupported-confound error for the
    first such entry, whose message names it; a value that is neither a
    string nor a list raises the strategy-type error. *)
Theorem sanitize_strategy_spec :
  _sanitize_strategy (StrategyStr "minimal")
  = Ok ["motion"; "high_pass"; "wm_csf"]
  /\ _sanitize_strategy (StrategyStr "minimal_glob")
     = Ok ["motion"; "high_pass"; "wm_csf"; "global"]
  /\ (forall confs,
        Forall (fun conf => In conf ["motion"; "high_pass"; "wm_csf"; "global"]) confs ->
        _sanitize_strategy (StrategyList confs) = Ok confs)
  /\ (forall name,
        name <> "minimal" -> name <> "minimal_glob" ->
        _sanitize_strategy (StrategyStr name) = Raise (StrategyNotSupported name))
  /\ (forall before conf after,
        Forall (fun c => In c ["motion"; "high_pass"; "wm_csf"; "global"]) before ->
        ~ In conf ["motion"; "high_pass"; "wm_csf"; "global"] ->
        _sanitize_strategy (StrategyList (before ++ conf :: after))
        = Raise (ConfoundNotSupported conf)
        /\ str_in conf (message (ConfoundNotSupported conf)) = true)
  /\ _sanitize_strategy StrategyOther = Raise StrategyBadType.
Proof.
  split; [reflexivity|]. split; [reflexivity|].
  split; [|split; [|split; [|reflexivity]]].
  - intros confs Hall; simpl.
    rewrite (check_confounds_all Hall); reflexivity.
  - intros name Hmin Hglob; simpl.
    apply String.eqb_neq in Hmin, Hglob.
    rewrite Hmin, Hglob; reflexivity.
  - intros before conf after Hbefore Hconf; split.
    + simpl. rewrite (check_confounds_first after Hbefore Hconf); reflexivity.
    + apply str_in_spec. exists EmptyString; eexists; reflexivity.
Qed.

(** C3, witness: [["global"]] is returned as given, ["bogus"] is no preset,
    and [["motion"; "bogus"; "global"]] is refused for "bogus". *)
Lemma sanitize_strategy_spec_witness :
  _sanitize_strategy (StrategyList ["global"]) = Ok ["global"]
  /\ _sanitize_strategy (StrategyStr "bogus") = Raise (StrategyNotSupported "bogus")
  /\ _sanitize_strategy (StrategyList ["motion"; "bogus"; "global"])
     = Raise (ConfoundNotSupported "bogus").
Proof.
  destruct sanitize_strategy_spec as (_ & _ & Hlist & Hname & Hconf & _).
  split; [|split].
  - apply Hlist. constructor; [simpl; tauto | constructor].
  - apply Hname; discriminate.
  - apply (Hconf ["motion"] "bogus" ["global"]).
    + constructor; [simpl; tauto | constructor].
    + simpl. intros [E|[E|[E|[E|[]]]]]; discriminate E.
Defined.

(** ** _check_params *)

(** ** Numbers *)

Lemma py_lt_iff (x y : Q) : py_lt x y = true <-> (x < y)%Q.
Proof.
  unfold py_lt; rewrite Qlt_alt.
  destruct (x ?= y)%Q; split; congruence.
Qed.

(** [(p > 0) and (p < 1)]. *)
Lemma in_unit_interval_iff (p : Q) :
  py_lt 0%Q p && py_lt p 1%Q = true <-> (0 < p)%Q /\ (p < 1)%Q.
Proof. rewrite andb_true_iff, !py_lt_iff; reflexivity. Qed.

Section Properties.

Context {value : Type} `{Collaborators value}.

Local Abbreviation table := (DataFrame value string).
Local Abbreviation store := (@Store.store value).
Local Abbreviation object := (@Store.object value).

(** ** pandas *)

Lemma positions_from_unique (i : nat) (name : string) (cols : list string) :
  NoDup cols -> In name cols ->
  positions_from i name cols = [i + index_of name cols].
Proof.
  intros Hnd; revert i; induction Hnd as [|c cols Hc Hnd IH]; intros i Hin.
  - destruct Hin.
  - cbn [positions_from index_of].
    destruct (String.eqb_spec c name) as [->|Hne].
    + rewrite Nat.add_0_r. simpl. f_equal.
      assert (Hnone : forall j, positions_from j name cols = []).
      { clear IH Hin Hnd. induction cols as [|d cols IH]; intros j; simpl; [reflexivity|].
        destruct (String.eqb_spec d name) as [->|Hd].
        - exfalso; apply Hc; left; reflexivity.
        - apply IH. intros Hin; apply Hc; right; exact Hin. }
      apply Hnone.
    + destruct Hin as [Heq|Hin]; [congruence|].
      simpl. rewrite (IH (S i) Hin). f_equal; lia.
Qed.

Lemma positions_unique (name : string) (cols : list string) :
  NoDup cols -> In name cols -> positions name cols = [index_of name cols].
Proof. intros Hnd Hin; apply (positions_from_unique 0 name Hnd Hin). Qed.

Lemma index_of_lt (name : string) (cols : list string) :
  In name cols -> index_of name cols < List.length cols.
Proof.
  induction cols as [|c cols IH]; simpl; [tauto|].
  intros Hin; destruct (String.eqb_spec c name) as [->|Hne]; [lia|].
  destruct Hin as [Heq|Hin]; [congruence | apply IH in Hin; lia].
Qed.

Lemma nth_index_of (name : string) (cols : list string) (d : string) :
  In name cols -> nth (index_of name cols) cols d = name.
Proof.
  induction cols as [|c cols IH]; simpl; [tauto|].
  intros Hin; destruct (String.eqb_spec c name) as [->|Hne]; [reflexivity|].
  destruct Hin as [Heq|Hin]; [congruence | apply IH, Hin].
Qed.

Lemma getitem_present (df : table) (names : list string) :
  Forall (fun name => In name (columns df)) names ->
  getitem df names
  = Ok {| columns := map (fun i => nth i (columns df) EmptyString)
                         (flat_map (fun n => positions n (columns df)) names);
          values := map (take (flat_map (fun n => positions n (columns df)) names))
                        (values df) |}.
Proof.
  intros Hall; unfold getitem.
  replace (filter (fun n => negb (str_in_list n (columns df))) names) with (@nil string);
    [reflexivity|].
  induction Hall as [|name names Hin _ IH]; simpl; [reflexivity|].
  apply str_in_list_In in Hin; rewrite Hin; exact IH.
Qed.

Lemma flat_map_positions_unique (cols names : list string) :
  NoDup cols -> Forall (fun name => In name cols) names ->
  flat_map (fun n => positions n cols) names
  = map (fun n => index_of n cols) names.
Proof.
  intros Hnd Hall; induction Hall as [|name names Hin _ IH]; simpl; [reflexivity|].
  rewrite (positions_unique name Hnd Hin), IH; reflexivity.
Qed.

(** On a table whose labels are pairwise distinct, [df[names]] has the
    labels [names], as many rows as [df], and under each label the cells
    [df] has under it. *)
Lemma getitem_unique (df : table) (names : list string) :
  NoDup (columns df) ->
  Forall (fun name => In name (columns df)) names ->
  exists out,
    getitem df names = Ok out
    /\ columns out = names
    /\ List.length (values out) = List.length (values df)
    /\ forall name, In name names -> column out name = column df name.
Proof.
  intros Hnd Hall. rewrite (getitem_present df Hall).
  rewrite (flat_map_positions_unique Hnd Hall).
  eexists; split; [reflexivity|]. cbn [columns values].
  assert (Hcols : map (fun i => nth i (columns df) EmptyString)
                      (map (fun n => index_of n (columns df)) names) = names).
  { rewrite map_map. rewrite <- (map_id names) at 2.
    apply map_ext_in. intros name Hin.
    apply nth_index_of. rewrite Forall_forall in Hall; apply Hall, Hin. }
  split; [exact Hcols|]. split; [apply length_map|].
  intros name Hin. unfold column; cbn [columns values]. rewrite Hcols, map_map.
  apply map_ext. intros row. unfold take.
  pose proof (index_of_lt name names Hin) as Hlt.
  rewrite (nth_indep _ NaN (nth (index_of name (columns df)) row NaN)).
  - rewrite (map_nth (fun i => nth i row NaN)).
    change (index_of name (columns df))
      with ((fun n => index_of n (columns df)) name) at 1.
    rewrite (map_nth (fun n => index_of n (columns df)) names name).
    rewrite (nth_index_of name names name Hin); reflexivity.
  - rewrite !length_map; exact Hlt.
Qed.

(** ** _check_params *)

Lemma check_params_present (confounds_raw : table) (params : list string) :
  Forall (fun par => In par (columns confounds_raw)) params ->
  _check_params confounds_raw params = Ok tt.
Proof.
  induction 1 as [|par params Hin _ IH]; cbn [_check_params]; [reflexivity|].
  apply str_in_list_In in Hin; rewrite Hin; exact IH.
Qed.

Lemma check_params_first (confounds_raw : table) (before : list string)
    (par : string) (after : list string) :
  Forall (fun p => In p (columns confounds_raw)) before ->
  ~ In par (columns confounds_raw) ->
  _check_params confounds_raw (before ++ par :: after) = Raise (ParamNotFound par).
Proof.
  intros Hbefore Hpar;
    induction Hbefore as [|p before Hin _ IH]; cbn [_check_params app].
  - apply str_in_list_not_In in Hpar; rewrite Hpar; reflexivity.
  - apply str_in_list_In in Hin; rewrite Hin; exact IH.
Qed.

Lemma check_params_Ok_inv (confounds_raw : table) (params : list string) :
  _check_params confounds_raw params = Ok tt ->
  Forall (fun par => In par (columns confounds_raw)) params.
Proof.
  induction params as [|par params IH]; cbn [_check_params]; [constructor|].
  destruct (str_in_list par (columns confounds_raw)) eqn:Hin; simpl; [|discriminate].
  intros Hrest; constructor; [apply str_in_list_In, Hin | apply IH, Hrest].
Qed.

(** The only exception of [_check_params] is the missing-parameter one. *)
Lemma check_params_Raise_inv (confounds_raw : table) (params : list string)
    (e : error) :
  _check_params confounds_raw params = Raise e ->
  exists par, In par params /\ ~ In par (columns confounds_raw)
              /\ e = ParamNotFound par.
Proof.
  induction params as [|par params IH]; cbn [_check_params]; [discriminate|].
  destruct (str_in_list par (columns confounds_raw)) eqn:Hin; simpl.
  - intros Hrest; destruct (IH Hrest) as (p & Hp & Hnot & ->).
    exists p; repeat split; [right; exact Hp | exact Hnot].
  - intros He; injection He as <-.
    exists par; repeat split; [left; reflexivity | apply str_in_list_not_In, Hin].
Qed.

(** ** The category loaders *)

Lemma load_motion_unfold (confounds_raw : table) (motion : string) (pca_motion : Q) :
  _load_motion confounds_raw motion pca_motion
  = (_check_params confounds_raw (_add_suffix motion_basic motion) ;;;
     confounds_motion <- getitem confounds_raw (_add_suffix motion_basic motion) ;;
     if py_lt 0%Q pca_motion && py_lt pca_motion 1%Q
     then _pca_motion confounds_motion pca_motion
     else Ok confounds_motion).
Proof. reflexivity. Qed.

Lemma motion_basic_NoDup : NoDup motion_basic.
Proof.
  unfold motion_basic.
  repeat (constructor; [simpl; intros Hin; repeat (destruct Hin as [Hin|Hin]; [discriminate Hin|]); exact Hin|]).
  constructor.
Qed.

(** C7. [_check_params] raises the missing-parameter error for the first
    required name that labels no column, with a message that names it, and
    returns without effect when every required name labels a column. A loader
    whose check raises, raises the same exception and returns no table. On a
    table whose columns are exactly the six basic motion parameters, the
    motion loader raises that error under "full" (for [trans_x_derivative1],
    the first expanded name), and under "basic", without reduction, returns
    the six columns with the cells the source has under each name. *)
Theorem check_params_first_missing (confounds_raw : table) :
  (forall before par after,
     Forall (fun p => In p (columns confounds_raw)) before ->
     ~ In par (columns confounds_raw) ->
     _check_params confounds_raw (before ++ par :: after) = Raise (ParamNotFound par)
     /\ str_in par (message (ParamNotFound par)) = true)
  /\ (forall params,
        Forall (fun p => In p (columns confounds_raw)) params ->
        _check_params confounds_raw params = Ok tt)
  /\ (forall e motion pca_motion,
        _check_params confounds_raw (_add_suffix motion_basic motion) = Raise e ->
        _load_motion confounds_raw motion pca_motion = Raise e)
  /\ (forall e wm_csf,
        _check_params confounds_raw (_add_suffix ["csf"; "white_matter"] wm_csf) = Raise e ->
        _load_wm_csf confounds_raw wm_csf = Raise e)
  /\ (forall e global_signal,
        _check_params confounds_raw (_add_suffix ["global_signal"] global_signal) = Raise e ->
        _load_global confounds_raw global_signal = Raise e)
  /\ (Permutation (columns confounds_raw)
        ["trans_x"; "trans_y"; "trans_z"; "rot_x"; "rot_y"; "rot_z"] ->
      forall pca_motion,
        _load_motion confounds_raw "full" pca_motion
        = Raise (ParamNotFound "trans_x_derivative1")
        /\ (~ ((0 < pca_motion)%Q /\ (pca_motion < 1)%Q) ->
            exists out,
              _load_motion confounds_raw "basic" pca_motion = Ok out
              /\ columns out = ["trans_x"; "trans_y"; "trans_z"; "rot_x"; "rot_y"; "rot_z"]
              /\ List.length (values out) = List.length (values confounds_raw)
              /\ forall name,
                   In name ["trans_x"; "trans_y"; "trans_z"; "rot_x"; "rot_y"; "rot_z"] ->
                   column out name = column confounds_raw name)).
Proof.
  split; [|split; [|split; [|split; [|split]]]].
  - intros before par after Hbefore Hpar; split.
    + apply check_params_first; assumption.
    + apply str_in_spec. exists "The parameter "; eexists; reflexivity.
  - apply check_params_present.
  - intros e motion pca_motion He. rewrite load_motion_unfold, He; reflexivity.
  - intros e wm_csf He. unfold _load_wm_csf. rewrite He; reflexivity.
  - intros e global_signal He. unfold _load_global. rewrite He; reflexivity.
  - intros Hperm pca_motion.
    assert (Hbasic : Forall (fun p => In p (columns confounds_raw)) motion_basic).
    { apply Forall_forall. intros p Hp.
      apply (Permutation_in p (Permutation_sym Hperm) Hp). }
    split.
    + rewrite load_motion_unfold.
      set (after := ["trans_x_power2"; "trans_x_derivative1_power2";
           "trans_y_derivative1"; "trans_y_power2"; "trans_y_derivative1_power2";
           "trans_z_derivative1"; "trans_z_power2"; "trans_z_derivative1_power2";
           "rot_x_derivative1"; "rot_x_power2"; "rot_x_derivative1_power2";
           "rot_y_derivative1"; "rot_y_power2"; "rot_y_derivative1_power2";
           "rot_z_derivative1"; "rot_z_power2"; "rot_z_derivative1_power2"]).
      change (_add_suffix motion_basic "full")
        with (motion_basic ++ "trans_x_derivative1" :: after).
      rewrite (check_params_first confounds_raw "trans_x_derivative1" after
                 Hbasic); [reflexivity|].
      intros Hin. apply (Permutation_in _ Hperm) in Hin.
      simpl in Hin.
      repeat (destruct Hin as [Hin|Hin]; [discriminate Hin|]); exact Hin.
    + intros Hout. rewrite load_motion_unfold.
      change (_add_suffix motion_basic "basic") with motion_basic.
      rewrite (check_params_present confounds_raw Hbasic). cbn [bind].
      assert (Hnd : NoDup (columns confounds_raw)).
      { apply (Permutation_NoDup (Permutation_sym Hperm)), motion_basic_NoDup. }
      destruct (getitem_unique confounds_raw Hnd Hbasic) as (out & Hget & Hcols & Hrows & Hcells).
      rewrite Hget; cbn [bind].
      destruct (py_lt 0%Q pca_motion && py_lt pca_motion 1%Q) eqn:Hp.
      * apply in_unit_interval_iff in Hp; contradiction.
      * exists out; repeat split; assumption.
Qed.

(** ** _find_confounds *)

Lemma scan_columns_spec (key : string) (cols list_confounds : list string)
    (key_found : bool) :
  scan_columns key cols (list_confounds, key_found)
  = (list_confounds ++ matching key cols,
     key_found || existsb (str_in key) cols).
Proof.
  unfold scan_columns, matching.
  revert list_confounds key_found;
    induction cols as [|col cols IH]; intros list_confounds key_found; simpl.
  - rewrite app_nil_r, orb_false_r; reflexivity.
  - destruct (str_in key col); rewrite IH; simpl.
    + rewrite <- app_assoc, orb_true_r; reflexivity.
    + reflexivity.
Qed.

Lemma matching_nil_iff (key : string) (cols : list string) :
  matching key cols = [] <-> existsb (str_in key) cols = false.
Proof.
  unfold matching; induction cols as [|col cols IH]; simpl; [tauto|].
  destruct (str_in key col); simpl; [split; discriminate | exact IH].
Qed.

Lemma find_loop_all (cols keys list_confounds : list string) :
  Forall (fun key => matching key cols <> []) keys ->
  find_loop cols keys list_confounds
  = Ok (list_confounds ++ flat_map (fun key => matching key cols) keys).
Proof.
  intros Hall; revert list_confounds;
    induction Hall as [|key keys Hkey _ IH]; intros list_confounds;
    cbn [find_loop flat_map].
  - rewrite app_nil_r; reflexivity.
  - rewrite scan_columns_spec; cbn [orb].
    destruct (existsb (str_in key) cols) eqn:Hex.
    + cbn [negb]. rewrite IH, app_assoc; reflexivity.
    + apply matching_nil_iff in Hex; contradiction.
Qed.

Lemma find_loop_first (cols before : list string) (key : string)
    (after list_confounds : list string) :
  Forall (fun k => matching k cols <> []) before ->
  matching key cols = [] ->
  find_loop cols (before ++ key :: after) list_confounds = Raise (KeyNotFound key).
Proof.
  intros Hbefore Hkey; revert list_confounds;
    induction Hbefore as [|k before Hk _ IH]; intros list_confounds;
    cbn [find_loop app]; rewrite scan_columns_spec; cbn [orb].
  - apply matching_nil_iff in Hkey; rewrite Hkey; reflexivity.
  - destruct (existsb (str_in k) cols) eqn:Hex.
    + cbn [negb]. apply IH.
    + apply matching_nil_iff in Hex; contradiction.
Qed.

(** A list of keywords either has a first keyword without a match, or
    every keyword has one. *)
Lemma keywords_split (cols keys : list string) :
  Forall (fun key => matching key cols <> []) keys
  \/ exists before key after,
       keys = before ++ key :: after
       /\ Forall (fun k => matching k cols <> []) before
       /\ matching key cols = [].
Proof.
  induction keys as [|key keys IH]; [left; constructor|].
  destruct (matching key cols) as [|col found] eqn:Hkey.
  - right; exists [], key, keys; repeat split; [constructor | exact Hkey].
  - destruct IH as [Hall | (before & k & after & -> & Hbefore & Hk)].
    + left; constructor; [rewrite Hkey; discriminate | exact Hall].
    + right; exists (key :: before), k, after; repeat split;
        [constructor; [rewrite Hkey; discriminate | exact Hbefore] | exact Hk].
Qed.

(** C5. For a list of keywords, [_find_confounds] returns, keyword by
    keyword in the order of the list and column by column in the order of
    the table, every column whose name contains the keyword as a substring;
    a column that several keywords match is returned once per keyword. It
    raises the no-match error, for the first keyword that matches no column,
    whenever there is one. On a table with the columns [cosine00],
    [cosine01], [trans_x] the high-pass loader returns the two cosine
    columns, in that order, as many rows as the table and the table's cells
    under each name. *)
Theorem find_confounds_spec (confounds_raw : table) :
  (forall keys,
     Forall (fun key => matching key (columns confounds_raw) <> []) keys ->
     _find_confounds confounds_raw (KeywordList keys)
     = Ok (flat_map
             (fun key => filter (str_in key) (columns confounds_raw)) keys))
  /\ (forall before key after,
        Forall (fun k => matching k (columns confounds_raw) <> []) before ->
        matching key (columns confounds_raw) = [] ->
        _find_confounds confounds_raw (KeywordList (before ++ key :: after))
        = Raise (KeyNotFound key)
        /\ str_in key (message (KeyNotFound key)) = true)
  /\ (forall keys,
        Exists (fun key => matching key (columns confounds_raw) = []) keys ->
        exists key,
          In key keys
          /\ matching key (columns confounds_raw) = []
          /\ _find_confounds confounds_raw (KeywordList keys)
             = Raise (KeyNotFound key))
  /\ (forall key col,
        str_in key col = true
        <-> exists pre post, col = (pre ++ key ++ post)%string)
  /\ (columns confounds_raw = ["cosine00"; "cosine01"; "trans_x"] ->
      exists out,
        _load_high_pass confounds_raw = Ok out
        /\ columns out = ["cosine00"; "cosine01"]
        /\ List.length (values out) = List.length (values confounds_raw)
        /\ forall name, In name ["cosine00"; "cosine01"] ->
                        column out name = column confounds_raw name).
Proof.
  split; [|split; [|split; [|split]]].
  - intros keys Hall; unfold _find_confounds.
    rewrite (find_loop_all _ [] Hall); reflexivity.
  - intros before key after Hbefore Hkey; split.
    + unfold _find_confounds. apply find_loop_first; assumption.
    + apply str_in_spec.
      exists "could not find any confound with the key ", EmptyString.
      rewrite append_empty_r; reflexivity.
  - intros keys Hex.
    destruct (keywords_split (columns confounds_raw) keys)
      as [Hall | (before & key & after & -> & Hbefore & Hkey)].
    + exfalso. apply Exists_exists in Hex as (key & Hin & Hkey).
      rewrite Forall_forall in Hall. exact (Hall key Hin Hkey).
    + exists key; split; [apply in_or_app; right; left; reflexivity|].
      split; [exact Hkey|]. unfold _find_confounds.
      apply find_loop_first; assumption.
  - apply str_in_spec.
  - intros Hcols. unfold _load_high_pass, _find_confounds.
    rewrite Hcols; cbn [find_loop]. rewrite scan_columns_spec.
    change (bind _ _) with (getitem confounds_raw ["cosine00"; "cosine01"]).
    apply getitem_unique; rewrite Hcols.
    + repeat (constructor; [simpl; intros Hin; repeat (destruct Hin as [Hin|Hin]; [discriminate Hin|]); exact Hin|]).
      constructor.
    + repeat (constructor; [simpl; tauto|]). constructor.
Qed.

(** C8 (as amended). [_find_confounds] raises the [ValueError] "keywords
    should be a list" exactly when its [keywords] argument is not a list: a
    tuple or a string of keywords, though a sequence, is refused as [None]
    is. On every list of keywords it goes on to the matching, which returns
    the matches or raises the no-match error for a keyword of the list. *)
Theorem find_confounds_list_only (confounds_raw : table) :
  (forall v,
     _find_confounds confounds_raw (keywords_arg_of v) = Raise KeywordsNotList
     <-> is_list v = false)
  /\ (forall keywords,
        _find_confounds confounds_raw keywords = Raise KeywordsNotList
        <-> keywords = KeywordsOther)
  /\ message KeywordsNotList = "keywords should be a list"
  /\ is_ValueError KeywordsNotList = true
  /\ (forall keys,
        _find_confounds confounds_raw (keywords_arg_of (KeywordsOfList keys))
        = find_loop (columns confounds_raw) keys []
        /\ (_find_confounds confounds_raw (keywords_arg_of (KeywordsOfList keys))
            = Ok (flat_map (fun key => matching key (columns confounds_raw)) keys)
            \/ exists key,
                 In key keys
                 /\ _find_confounds confounds_raw
                      (keywords_arg_of (KeywordsOfList keys))
                    = Raise (KeyNotFound key))).
Proof.
  assert (Hlist : forall keys,
             _find_confounds confounds_raw (KeywordList keys)
             = Ok (flat_map (fun key => matching key (columns confounds_raw)) keys)
             \/ exists key,
                  In key keys
                  /\ _find_confounds confounds_raw (KeywordList keys)
                     = Raise (KeyNotFound key)).
  { intros keys; unfold _find_confounds.
    destruct (keywords_split (columns confounds_raw) keys)
      as [Hall | (before & key & after & -> & Hbefore & Hkey)].
    - left. rewrite (find_loop_all _ [] Hall); reflexivity.
    - right; exists key; split.
      + apply in_or_app; right; left; reflexivity.
      + apply find_loop_first; assumption. }
  assert (Harg : forall keywords,
             _find_confounds confounds_raw keywords = Raise KeywordsNotList
             <-> keywords = KeywordsOther).
  { intros keywords.
    destruct keywords as [keys|]; split; try reflexivity; try discriminate.
    intros Hraise. destruct (Hlist keys) as [Hok | (key & _ & Hkey)];
      rewrite Hraise in *; discriminate. }
  split; [|split; [exact Harg | split; [reflexivity | split; [reflexivity|]]]].
  - intros v. rewrite Harg.
    destruct v; cbn [keywords_arg_of is_list]; split; intros Heq;
      try reflexivity; discriminate Heq.
  - intros keys. cbn [keywords_arg_of]. split; [reflexivity | apply Hlist].
Qed.

(** ** _load_motion and _pca_motion *)

Lemma pca_motion_unfold (motion : table) (n_components : Q) :
  _pca_motion motion n_components
  = (transformed <-
       fit_transform n_components
         {| n_columns := List.length (columns motion);
            array := filter (forallb (@notna value)) (values motion) |} ;;
     Ok {| columns := map (fun k => ("motion_pca_" ++ str_of_nat k)%string)
                          (seq 1 (n_columns transformed));
           values := array transformed |}).
Proof.
  unfold _pca_motion, to_array, dropna, frame_of_array, set_columns; cbn [columns values].
  destruct (fit_transform _ _) as [transformed|e]; [|reflexivity].
  cbn [bind n_columns array]. do 2 f_equal.
  rewrite <- seq_shift, map_map.
  apply map_ext; intros col. rewrite Nat.add_1_r; reflexivity.
Qed.

(** C4. On a table that has the expanded motion columns, the motion loader
    hands the selected columns to [_pca_motion] when [pca_motion] is strictly
    between 0 and 1, and returns them as selected otherwise, in particular
    for 0 and for the default 1. [_pca_motion] drops the rows with a missing
    value, calls the decomposition on the rest, and returns its output
    under the labels [motion_pca_1 .. motion_pca_K]. *)
Theorem load_motion_reduction (confounds_raw : table) (motion : string)
    (pca_motion : Q) :
  Forall (fun par => In par (columns confounds_raw))
         (_add_suffix motion_basic motion) ->
  exists selected,
    getitem confounds_raw (_add_suffix motion_basic motion) = Ok selected
    /\ ((0 < pca_motion)%Q /\ (pca_motion < 1)%Q ->
        _load_motion confounds_raw motion pca_motion
        = _pca_motion selected pca_motion)
    /\ (~ ((0 < pca_motion)%Q /\ (pca_motion < 1)%Q) ->
        _load_motion confounds_raw motion pca_motion = Ok selected)
    /\ _load_motion confounds_raw motion 0%Q = Ok selected
    /\ _load_motion confounds_raw motion 1%Q = Ok selected
    /\ _pca_motion selected pca_motion
       = (transformed <-
            fit_transform pca_motion
              {| n_columns := List.length (columns selected);
                 array := filter (forallb (@notna value)) (values selected) |} ;;
          Ok {| columns := map (fun k => ("motion_pca_" ++ str_of_nat k)%string)
                               (seq 1 (n_columns transformed));
                values := array transformed |}).
Proof.
  intros Hall.
  eexists; split; [apply (getitem_present confounds_raw Hall)|].
  assert (Hload : forall p,
             _load_motion confounds_raw motion p
             = if py_lt 0%Q p && py_lt p 1%Q
               then _pca_motion
                      {| columns := map (fun i => nth i (columns confounds_raw) EmptyString)
                                        (flat_map (fun n => positions n (columns confounds_raw))
                                                  (_add_suffix motion_basic motion));
                         values := map (take (flat_map (fun n => positions n (columns confounds_raw))
                                                       (_add_suffix motion_basic motion)))
                                       (values confounds_raw) |} p
               else Ok {| columns := map (fun i => nth i (columns confounds_raw) EmptyString)
                                         (flat_map (fun n => positions n (columns confounds_raw))
                                                   (_add_suffix motion_basic motion));
                          values := map (take (flat_map (fun n => positions n (columns confounds_raw))
                                                        (_add_suffix motion_basic motion)))
                                        (values confounds_raw) |}).
  { intros p. rewrite load_motion_unfold.
    rewrite (check_params_present confounds_raw Hall).
    rewrite (getitem_present confounds_raw Hall). reflexivity. }
  split; [|split; [|split; [|split]]].
  - intros Hin. rewrite Hload.
    apply in_unit_interval_iff in Hin; rewrite Hin; reflexivity.
  - intros Hout. rewrite Hload.
    destruct (py_lt 0%Q pca_motion && py_lt pca_motion 1%Q) eqn:Hp; [|reflexivity].
    apply in_unit_interval_iff in Hp; contradiction.
  - rewrite Hload; reflexivity.
  - rewrite Hload; reflexivity.
  - apply pca_motion_unfold.
Qed.

(** ** _load_confounds_single *)

Lemma sanitize_strategy_supported (strategy : strategy_arg)
    (resolved : list string) :
  _sanitize_strategy strategy = Ok resolved ->
  Forall (fun conf => In conf canonical_order) resolved.
Proof.
  destruct strategy as [name|confs|]; cbn [_sanitize_strategy]; [| |discriminate].
  - destruct (String.eqb_spec name "minimal") as [->|Hmin].
    + intros Hr; injection Hr as <-. repeat (constructor; [simpl; tauto|]); constructor.
    + destruct (String.eqb_spec name "minimal_glob") as [->|Hglob].
      * intros Hr; injection Hr as <-. repeat (constructor; [simpl; tauto|]); constructor.
      * apply String.eqb_neq in Hmin, Hglob. simpl. rewrite Hmin, Hglob; discriminate.
  - intros Hr. apply bind_Ok_inv in Hr as ([] & Hcheck & Hr). injection Hr as <-.
    induction confs as [|conf confs IH]; [constructor|].
    cbn [check_confounds] in Hcheck.
    destruct (str_in_list conf all_confounds) eqn:Hin; [|discriminate].
    constructor; [apply str_in_list_In, Hin | apply IH, Hcheck].
Qed.

(** The four tests of the assembler, in the order they are written, are a
    run of the loaders of the invoked categories. *)
Lemma load_confounds_single_run (confounds_raw : input) (strategy : strategy_arg)
    (motion : string) (pca_motion : Q) (wm_csf global_signal : string) :
  _load_confounds_single confounds_raw strategy motion pca_motion wm_csf global_signal
  = (df <- _confounds2df confounds_raw ;;
     resolved <- _sanitize_strategy strategy ;;
     run_loaders (loader df motion pca_motion wm_csf global_signal)
                 (invoked resolved) empty_frame).
Proof.
  unfold _load_confounds_single.
  destruct (_confounds2df confounds_raw) as [df|e]; [|reflexivity].
  destruct (_sanitize_strategy strategy) as [resolved|e]; [|reflexivity].
  cbn [bind]. unfold invoked, canonical_order. cbn [filter].
  destruct (str_in_list "motion" resolved);
    destruct (str_in_list "high_pass" resolved);
    destruct (str_in_list "wm_csf" resolved);
    destruct (str_in_list "global" resolved);
    cbn [run_loaders]; unfold loader; cbn [String.eqb Ascii.eqb Bool.eqb];
    repeat match goal with
           | |- context [_load_motion ?a ?b ?c] => destruct (_load_motion a b c); cbn [bind]
           | |- context [_load_high_pass ?a] => destruct (_load_high_pass a); cbn [bind]
           | |- context [_load_wm_csf ?a ?b] => destruct (_load_wm_csf a b); cbn [bind]
           | |- context [_load_global ?a ?b] => destruct (_load_global a b); cbn [bind]
           end;
    reflexivity.
Qed.

Lemma invoked_same_members (strategy other : list string) :
  (forall category, In category other <-> In category strategy) ->
  invoked other = invoked strategy.
Proof.
  intros Hsame; unfold invoked. apply filter_ext. intros category.
  destruct (str_in_list category strategy) eqn:Hs.
  - apply str_in_list_In. apply Hsame. apply str_in_list_In, Hs.
  - apply str_in_list_not_In. intros Hin. apply Hsame in Hin.
    apply str_in_list_In in Hin. congruence.
Qed.

Lemma invoked_In (strategy : list string) (category : string) :
  In category (invoked strategy)
  <-> In category strategy /\ In category canonical_order.
Proof.
  unfold invoked. rewrite filter_In, str_in_list_In. tauto.
Qed.

Lemma invoked_NoDup (strategy : list string) : NoDup (invoked strategy).
Proof.
  unfold invoked. apply NoDup_filter. unfold canonical_order.
  repeat (constructor; [simpl; intros Hin; repeat (destruct Hin as [Hin|Hin]; [discriminate Hin|]); exact Hin|]).
  constructor.
Qed.

Lemma run_loaders_Forall2 (load : string -> result table)
    (categories : list string) (confounds out : table) :
  run_loaders load categories confounds = Ok out
  <-> exists subs,
        Forall2 (fun category sub => load category = Ok sub) categories subs
        /\ out = fold_left (@concat value) subs confounds.
Proof.
  revert confounds; induction categories as [|category rest IH];
    intros confounds; cbn [run_loaders].
  - split.
    + intros Hout; injection Hout as <-. exists []; split; [constructor | reflexivity].
    + intros (subs & Hsubs & ->). inversion Hsubs; reflexivity.
  - split.
    + intros Hout. apply bind_Ok_inv in Hout as (sub & Hsub & Hout).
      apply IH in Hout as (subs & Hsubs & ->).
      exists (sub :: subs); split; [constructor; assumption | reflexivity].
    + intros (subs & Hsubs & ->).
      inversion Hsubs as [|? sub ? subs' Hsub Hrest]; subst.
      rewrite Hsub; cbn [bind fold_left]. apply IH.
      exists subs'; split; [exact Hrest | reflexivity].
Qed.

Lemma columns_fold_concat (subs : list table) (confounds : table) :
  columns (fold_left (@concat value) subs confounds)
  = columns confounds ++ flat_map (@columns value string) subs.
Proof.
  revert confounds; induction subs as [|sub subs IH]; intros confounds;
    cbn [fold_left flat_map].
  - rewrite app_nil_r; reflexivity.
  - rewrite IH. cbn [concat columns]. rewrite app_assoc; reflexivity.
Qed.

(** C2. Once the input is a table and the strategy is resolved, the
    assembler is the run, from an empty table, of the loaders of the
    categories of the strategy taken in the canonical order motion,
    high_pass, wm_csf, global: the categories run are those the strategy
    names, whatever their order (and number of occurrences) in a custom
    list; the output is the concatenation, left to right, of the outputs of
    these loaders, and its columns are their columns in that order, so a
    category the strategy does not name contributes none. *)
Theorem load_confounds_single_canonical (confounds_raw : input)
    (strategy : strategy_arg) (motion : string) (pca_motion : Q)
    (wm_csf global_signal : string) (df : table) (resolved : list string) :
  _confounds2df confounds_raw = Ok df ->
  _sanitize_strategy strategy = Ok resolved ->
  _load_confounds_single confounds_raw strategy motion pca_motion wm_csf global_signal
  = run_loaders (loader df motion pca_motion wm_csf global_signal)
                (filter (fun category => str_in_list category resolved)
                        ["motion"; "high_pass"; "wm_csf"; "global"])
                empty_frame
  /\ (forall category, In category (invoked resolved) <-> In category resolved)
  /\ (forall other,
        (forall category, In category other <-> In category resolved) ->
        invoked other = invoked resolved)
  /\ (forall out,
        _load_confounds_single confounds_raw strategy motion pca_motion
          wm_csf global_signal = Ok out
        <-> exists subs,
              Forall2 (fun category sub =>
                         loader df motion pca_motion wm_csf global_signal category
                         = Ok sub)
                      (invoked resolved) subs
              /\ out = fold_left (@concat value) subs empty_frame)
  /\ (forall subs,
        Forall2 (fun category sub =>
                   loader df motion pca_motion wm_csf global_signal category = Ok sub)
                (invoked resolved) subs ->
        columns (fold_left (@concat value) subs empty_frame)
        = flat_map (@columns value string) subs).
Proof.
  intros Hdf Hresolved.
  assert (Hrun : _load_confounds_single confounds_raw strategy motion pca_motion
                   wm_csf global_signal
                 = run_loaders (loader df motion pca_motion wm_csf global_signal)
                               (invoked resolved) empty_frame).
  { rewrite load_confounds_single_run, Hdf, Hresolved; reflexivity. }
  split; [exact Hrun|]. split; [|split; [|split]].
  - intros category. rewrite invoked_In. split; [tauto|].
    intros Hin; split; [exact Hin|].
    pose proof (sanitize_strategy_supported strategy Hresolved) as Hsup.
    rewrite Forall_forall in Hsup; apply Hsup, Hin.
  - apply invoked_same_members.
  - intros out. rewrite Hrun. apply run_loaders_Forall2.
  - intros subs _. apply columns_fold_concat.
Qed.

(** C10. A custom list of supported categories is accepted with its
    repetitions, and the assembler's result depends on the members of the
    list only: it is the result for the list without its repetitions, and
    for any list with the same members. The loaders run are the categories
    of the list in canonical order, each once. The empty list is accepted
    and yields the empty table, which has no column. *)
Theorem load_confounds_single_duplicates (confounds_raw : input)
    (confs : list string) (motion : string) (pca_motion : Q)
    (wm_csf global_signal : string) :
  Forall (fun conf => In conf ["motion"; "high_pass"; "wm_csf"; "global"]) confs ->
  _sanitize_strategy (StrategyList confs) = Ok confs
  /\ _load_confounds_single confounds_raw (StrategyList confs)
       motion pca_motion wm_csf global_signal
     = _load_confounds_single confounds_raw (StrategyList (nodup string_dec confs))
         motion pca_motion wm_csf global_signal
  /\ (forall other,
        (forall category, In category other <-> In category confs) ->
        _load_confounds_single confounds_raw (StrategyList other)
          motion pca_motion wm_csf global_signal
        = _load_confounds_single confounds_raw (StrategyList confs)
            motion pca_motion wm_csf global_signal)
  /\ (forall df,
        _confounds2df confounds_raw = Ok df ->
        _load_confounds_single confounds_raw (StrategyList confs)
          motion pca_motion wm_csf global_signal
        = run_loaders (loader df motion pca_motion wm_csf global_signal)
            (invoked confs) empty_frame)
  /\ NoDup (invoked confs)
  /\ (forall df,
        _confounds2df confounds_raw = Ok df ->
        _load_confounds_single confounds_raw (StrategyList [])
          motion pca_motion wm_csf global_signal
        = Ok empty_frame)
  /\ columns (@empty_frame value) = [].
Proof.
  intros Hall.
  assert (Hok : forall l, Forall (fun conf => In conf all_confounds) l ->
                          _sanitize_strategy (StrategyList l) = Ok l).
  { intros l Hl; cbn [_sanitize_strategy]. rewrite (check_confounds_all Hl); reflexivity. }
  assert (Hsame : forall other,
             (forall category, In category other <-> In category confs) ->
             _load_confounds_single confounds_raw (StrategyList other)
               motion pca_motion wm_csf global_signal
             = _load_confounds_single confounds_raw (StrategyList confs)
                 motion pca_motion wm_csf global_signal).
  { intros other Hmem. rewrite !load_confounds_single_run.
    destruct (_confounds2df confounds_raw) as [df|e]; [|reflexivity]. cbn [bind].
    rewrite (Hok confs Hall), (Hok other).
    - cbn [bind]. rewrite (invoked_same_members confs other Hmem); reflexivity.
    - apply Forall_forall. intros c Hc. apply Hmem in Hc.
      rewrite Forall_forall in Hall; apply Hall, Hc. }
  split; [apply Hok, Hall|]. split; [|split; [exact Hsame|split; [|split; [|split]]]].
  - symmetry; apply Hsame. intros category; apply nodup_In.
  - intros df Hdf. rewrite load_confounds_single_run, Hdf, (Hok confs Hall); reflexivity.
  - apply invoked_NoDup.
  - intros df Hdf. rewrite load_confounds_single_run, Hdf; reflexivity.
  - reflexivity.
Qed.

(** ** load_confounds *)

Lemma load_loop_mapM (files : list input) (confounds_out : list table)
    (strategy : strategy_arg) (motion : string) (pca_motion : Q)
    (wm_csf global_signal : string) :
  load_loop files confounds_out strategy motion pca_motion wm_csf global_signal
  = (dfs <- mapM (fun file =>
                    _load_confounds_single file strategy motion pca_motion
                      wm_csf global_signal) files ;;
     Ok (confounds_out ++ dfs)).
Proof.
  revert confounds_out; induction files as [|file rest IH]; intros confounds_out;
    cbn [load_loop mapM bind].
  - rewrite app_nil_r; reflexivity.
  - destruct (_load_confounds_single file _ _ _ _ _) as [df|e]; [|reflexivity].
    cbn [bind]. rewrite IH.
    destruct (mapM _ rest) as [dfs|e]; [|reflexivity].
    cbn [bind]. rewrite <- app_assoc; reflexivity.
Qed.

(** C6. On a list of N inputs the entry point returns the list of the N
    tables that [_load_confounds_single] returns for each input, in the order
    of the inputs; it returns when each of these calls returns. On a single
    input, a path or a table, it returns that call's one table, not a
    list. *)
Theorem load_confounds_cardinality (strategy : strategy_arg) (motion : string)
    (pca_motion : Q) (wm_csf global_signal : string) :
  (forall inputs dfs,
     Forall2 (fun file df =>
                _load_confounds_single file strategy motion pca_motion
                  wm_csf global_signal = Ok df) inputs dfs
     <-> load_confounds (Many inputs) strategy motion pca_motion
           wm_csf global_signal = Ok (FrameList dfs))
  /\ (forall inputs out,
        load_confounds (Many inputs) strategy motion pca_motion
          wm_csf global_signal = Ok out ->
        exists dfs, out = FrameList dfs
                    /\ List.length dfs = List.length inputs)
  /\ (forall one,
        load_confounds (Single one) strategy motion pca_motion
          wm_csf global_signal
        = (df <- _load_confounds_single one strategy motion pca_motion
                   wm_csf global_signal ;;
           Ok (OneFrame df))).
Proof.
  assert (Hmany : forall inputs,
             load_confounds (Many inputs) strategy motion pca_motion
               wm_csf global_signal
             = (dfs <- mapM (fun file =>
                               _load_confounds_single file strategy motion
                                 pca_motion wm_csf global_signal) inputs ;;
                Ok (FrameList dfs))).
  { intros inputs. unfold load_confounds; cbn [_sanitize_confounds bind].
    rewrite load_loop_mapM. destruct (mapM _ inputs); reflexivity. }
  split; [|split].
  - intros inputs dfs. rewrite Hmany, <- mapM_Forall2.
    destruct (mapM _ inputs) as [dfs'|e]; cbn [bind]; split; intros Heq;
      try discriminate; injection Heq as ->; reflexivity.
  - intros inputs out. rewrite Hmany.
    destruct (mapM _ inputs) as [dfs|e] eqn:Hmap; cbn [bind]; [|discriminate].
    intros Heq; injection Heq as <-. exists dfs; split; [reflexivity|].
    apply mapM_Forall2 in Hmap. symmetry; apply (Forall2_length Hmap).
  - intros one. unfold load_confounds; cbn [_sanitize_confounds bind load_loop].
    destruct (_load_confounds_single one _ _ _ _ _); reflexivity.
Qed.

(** ** The store *)

Lemma nth_error_app_end (s : store) (o : object) :
  nth_error (s ++ [o]) (List.length s) = Some o.
Proof. rewrite nth_error_app2, Nat.sub_diag by lia; reflexivity. Qed.

Lemma update_app_end (s : store) (o o' : object) :
  Store.update (s ++ [o]) (List.length s) o' = s ++ [o'].
Proof. induction s as [|x s IH]; simpl; [|rewrite IH]; reflexivity. Qed.

Lemma table_at_app (s fresh : store) (r : Store.ref) (df : table) :
  table_at s r = Some df -> table_at (s ++ fresh) r = Some df.
Proof.
  unfold table_at. destruct (nth_error s r) as [o|] eqn:Hr; [|discriminate].
  rewrite nth_error_app1 by (apply nth_error_Some; congruence).
  rewrite Hr; trivial.
Qed.

Lemma table_at_end (s : store) (df : table) :
  table_at (s ++ [Store.Named df]) (List.length s) = Some df.
Proof. unfold table_at; rewrite nth_error_app_end; reflexivity. Qed.

Lemma table_at_lt (s : store) (r : Store.ref) (df : table) :
  table_at s r = Some df -> r < List.length s.
Proof.
  unfold table_at. destruct (nth_error s r) eqn:Hr; [|discriminate].
  intros _; apply nth_error_Some; congruence.
Qed.

Lemma store_read_run (s : store) (r : Store.ref) (df : table) :
  table_at s r = Some df -> Store.read r s = (Ok df, s).
Proof.
  unfold table_at, Store.read.
  destruct (nth_error s r) as [[df'|df']|]; try discriminate.
  intros Heq; injection Heq as ->; reflexivity.
Qed.

Lemma store_check_params_run (s : store) (r : Store.ref) (df : table)
    (params : list string) :
  table_at s r = Some df ->
  Store._check_params r params s = (_check_params df params, s).
Proof.
  intros Hr; induction params as [|par rest IH];
    cbn [Store._check_params _check_params]; [reflexivity|].
  unfold Store.bind, Store.get_columns. unfold Store.bind at 1.
  rewrite (store_read_run s r Hr). unfold Store.ret at 1.
  destruct (negb (str_in_list par (columns df))); [reflexivity | exact IH].
Qed.

Lemma store_find_loop_run (s : store) (r : Store.ref) (df : table)
    (keys list_confounds : list string) :
  table_at s r = Some df ->
  Store.find_loop r keys list_confounds s
  = (find_loop (columns df) keys list_confounds, s).
Proof.
  intros Hr; revert list_confounds; induction keys as [|key rest IH];
    intros list_confounds; cbn [Store.find_loop find_loop]; [reflexivity|].
  unfold Store.bind, Store.get_columns. unfold Store.bind at 1.
  rewrite (store_read_run s r Hr). unfold Store.ret at 1.
  destruct (scan_columns key (columns df) (list_confounds, false)) as [found key_found].
  destruct (negb key_found); [reflexivity | apply IH].
Qed.

Lemma store_find_confounds_run (s : store) (r : Store.ref) (df : table)
    (keywords : keywords_arg) :
  table_at s r = Some df ->
  Store._find_confounds r keywords s = (_find_confounds df keywords, s).
Proof.
  intros Hr; destruct keywords as [keys|]; [|reflexivity].
  apply store_find_loop_run, Hr.
Qed.

(** A computation that allocates the table [pure] returns, if any. *)
Lemma loaded_new (m : Store.M Store.ref) (s : store) (pure : result table) :
  m s = match pure with
        | Ok df => (Ok (List.length s), s ++ [Store.Named df])
        | Raise e => (Raise e, s)
        end ->
  loaded (List.length s) m s pure.
Proof.
  intros Hrun; unfold loaded; rewrite Hrun. destruct pure as [df|e]; cbn [fst snd].
  - exists [Store.Named df]; split; [reflexivity|].
    exists (List.length s); repeat split; [lia | apply table_at_end].
  - exists []; split; [rewrite app_nil_r|]; reflexivity.
Qed.

Lemma store_getitem_run (s : store) (r : Store.ref) (df : table)
    (names : list string) :
  table_at s r = Some df ->
  Store.getitem_ref r names s
  = match getitem df names with
    | Ok selected => (Ok (List.length s), s ++ [Store.Named selected])
    | Raise e => (Raise e, s)
    end.
Proof.
  intros Hr; unfold Store.getitem_ref, Store.bind.
  rewrite (store_read_run s r Hr). unfold Store.lift.
  destruct (getitem df names); reflexivity.
Qed.

Lemma store_load_global_run (s : store) (r : Store.ref) (df : table)
    (global_signal : string) :
  table_at s r = Some df ->
  loaded (List.length s) (Store._load_global r global_signal) s
         (_load_global df global_signal).
Proof.
  intros Hr; apply loaded_new.
  unfold Store._load_global, _load_global, Store.bind.
  rewrite (store_check_params_run s r _ Hr).
  destruct (_check_params df _); cbn [bind]; [|reflexivity].
  apply store_getitem_run, Hr.
Qed.

Lemma store_load_wm_csf_run (s : store) (r : Store.ref) (df : table)
    (wm_csf : string) :
  table_at s r = Some df ->
  loaded (List.length s) (Store._load_wm_csf r wm_csf) s (_load_wm_csf df wm_csf).
Proof.
  intros Hr; apply loaded_new.
  unfold Store._load_wm_csf, _load_wm_csf, Store.bind.
  rewrite (store_check_params_run s r _ Hr).
  destruct (_check_params df _); cbn [bind]; [|reflexivity].
  apply store_getitem_run, Hr.
Qed.

Lemma store_load_high_pass_run (s : store) (r : Store.ref) (df : table) :
  table_at s r = Some df ->
  loaded (List.length s) (Store._load_high_pass r) s (_load_high_pass df).
Proof.
  intros Hr; apply loaded_new.
  unfold Store._load_high_pass, _load_high_pass, Store.bind.
  rewrite (store_find_confounds_run s r _ Hr).
  destruct (_find_confounds df _); cbn [bind]; [|reflexivity].
  apply store_getitem_run, Hr.
Qed.

Lemma store_pca_motion_run (s : store) (r : Store.ref) (df : table)
    (n_components : Q) :
  table_at s r = Some df ->
  Store._pca_motion r n_components s
  = match fit_transform n_components (to_array (dropna df)) with
    | Ok transformed =>
        (Ok (S (List.length s)),
         s ++ [Store.Named (dropna df);
               Store.Named
                 (set_columns (frame_of_array transformed)
                    (map (fun col => ("motion_pca_" ++ str_of_nat (col + 1))%string)
                         (columns (frame_of_array transformed))))])
    | Raise e => (Raise e, s ++ [Store.Named (dropna df)])
    end.
Proof.
  intros Hr. unfold Store._pca_motion, Store.dropna_ref.
  unfold Store.bind at 1. unfold Store.bind at 1.
  rewrite (store_read_run s r Hr). unfold Store.new at 1.
  unfold Store.bind at 1.
  rewrite (store_read_run _ _ (table_at_end s (dropna df))).
  unfold Store.bind at 1. unfold Store.lift.
  destruct (fit_transform n_components (to_array (dropna df))) as [transformed|e];
    [|reflexivity].
  unfold Store.bind, Store.new, Store.read_ranged, Store.assign_columns, Store.ret.
  rewrite nth_error_app_end; cbv beta iota.
  rewrite nth_error_app_end; cbv beta iota.
  rewrite update_app_end.
  rewrite length_app, <- app_assoc, Nat.add_1_r; reflexivity.
Qed.

Lemma store_pca_motion_loaded (s : store) (r : Store.ref) (df : table)
    (n_components : Q) :
  table_at s r = Some df ->
  loaded (List.length s) (Store._pca_motion r n_components) s
         (_pca_motion df n_components).
Proof.
  intros Hr; unfold loaded. rewrite (store_pca_motion_run s r n_components Hr).
  unfold _pca_motion.
  destruct (fit_transform n_components (to_array (dropna df))) as [transformed|e];
    cbn [bind fst snd].
  - eexists; split; [reflexivity|].
    exists (S (List.length s)); repeat split; [lia|].
    change (s ++ [?a; ?b]) with (s ++ [a] ++ [b]).
    rewrite app_assoc.
    replace (S (List.length s)) with (List.length (s ++ [Store.Named (dropna df)]))
      by (rewrite length_app; simpl; lia).
    apply table_at_end.
  - eexists; split; reflexivity.
Qed.

Lemma loaded_le (n n' : nat) (m : Store.M Store.ref) (s : store)
    (pure : result table) :
  n <= n' -> loaded n' m s pure -> loaded n m s pure.
Proof.
  intros Hle (fresh & Hs & Hp); exists fresh; split; [exact Hs|].
  destruct pure as [df|e]; [|exact Hp].
  destruct Hp as (r & Hr & Hn & Hdf); exists r; repeat split; [exact Hr | lia | exact Hdf].
Qed.

(** A computation that goes on, from a store already extended by [pre], as
    another one does. *)
Lemma loaded_after (n n' : nat) (m m' : Store.M Store.ref) (s pre : store)
    (pure : result table) :
  n <= n' -> m s = m' (s ++ pre) ->
  loaded n' m' (s ++ pre) pure -> loaded n m s pure.
Proof.
  intros Hle Hrun (fresh & Hs & Hp); unfold loaded; rewrite Hrun.
  exists (pre ++ fresh); rewrite app_assoc; split; [exact Hs|].
  destruct pure as [df|e]; [|exact Hp].
  destruct Hp as (r & Hr & Hn & Hdf); exists r; repeat split; [exact Hr | lia | exact Hdf].
Qed.

Lemma loaded_ret (n : nat) (s : store) (r : Store.ref) (df : table) :
  n <= r -> table_at s r = Some df -> loaded n (Store.ret r) s (Ok df).
Proof.
  intros Hn Hr; exists []; cbn [Store.ret fst snd]; rewrite app_nil_r.
  split; [reflexivity|]. exists r; repeat split; assumption.
Qed.

Lemma loaded_bind (n0 n : nat) (m : Store.M Store.ref)
    (f : Store.ref -> Store.M Store.ref) (s : store) (pure : result table)
    (g : table -> result table) :
  loaded n0 m s pure ->
  (forall r df fresh,
     n0 <= r -> table_at (s ++ fresh) r = Some df ->
     loaded n (f r) (s ++ fresh) (g df)) ->
  loaded n (Store.bind m f) s (bind pure g).
Proof.
  intros (fresh & Hs & Hp) Hnext; unfold loaded, Store.bind.
  destruct (m s) as [res s1]; cbn [fst snd] in *; subst s1.
  destruct pure as [df|e]; cbn [bind].
  - destruct Hp as (r & -> & Hn & Hdf).
    destruct (Hnext r df fresh Hn Hdf) as (fresh' & Hs' & Hp').
    exists (fresh ++ fresh'); rewrite app_assoc; split; [exact Hs'|].
    destruct (g df) as [out|e]; [|exact Hp'].
    destruct Hp' as (r' & Hr' & Hn' & Hout); exists r'; repeat split; assumption.
  - subst res. exists fresh; split; reflexivity.
Qed.

Lemma store_load_motion_run (s : store) (r : Store.ref) (df : table)
    (motion : string) (pca_motion : Q) :
  table_at s r = Some df ->
  loaded (List.length s) (Store._load_motion r motion pca_motion) s
         (_load_motion df motion pca_motion).
Proof.
  intros Hr. rewrite load_motion_unfold.
  unfold Store._load_motion.
  destruct (_check_params df (_add_suffix motion_basic motion)) as [[]|e] eqn:Hcheck;
    cbn [bind].
  - destruct (getitem df (_add_suffix motion_basic motion)) as [selected|e] eqn:Hget;
      cbn [bind].
    + destruct (py_lt 0%Q pca_motion && py_lt pca_motion 1%Q).
      * apply loaded_after
          with (n' := List.length (s ++ [Store.Named selected]))
               (m' := Store._pca_motion (List.length s) pca_motion)
               (pre := [Store.Named selected]).
        -- rewrite length_app; lia.
        -- unfold Store.bind at 1.
           rewrite (store_check_params_run s r _ Hr), Hcheck.
           unfold Store.bind at 1.
           rewrite (store_getitem_run s r _ Hr), Hget. reflexivity.
        -- apply store_pca_motion_loaded, table_at_end.
      * apply loaded_new. unfold Store.bind.
        rewrite (store_check_params_run s r _ Hr), Hcheck.
        rewrite (store_getitem_run s r _ Hr), Hget. reflexivity.
    + apply loaded_new. unfold Store.bind.
      rewrite (store_check_params_run s r _ Hr), Hcheck.
      rewrite (store_getitem_run s r _ Hr), Hget. reflexivity.
  - apply loaded_new. unfold Store.bind.
    rewrite (store_check_params_run s r _ Hr), Hcheck. reflexivity.
Qed.

Lemma store_confounds2df_run (s : store) (file : Store.input) (file' : input) :
  input_in s file = Some file' ->
  loaded 0 (Store._confounds2df file) s (_confounds2df file').
Proof.
  destruct file as [path|r]; cbn [input_in].
  - intros Heq; injection Heq as <-.
    apply loaded_le with (n' := List.length s); [lia|]. apply loaded_new.
    cbn [Store._confounds2df _confounds2df]. unfold Store.bind, Store.lift.
    destruct (if str_in "nii" (last_chars 6 path)
              then match nth_error (split path "space-") 1 with
                   | Some rest =>
                       Ok (replace path ("_space-" ++ rest)
                                   "_desc-confounds_regressors.tsv")
                   | None => Raise IndexError
                   end
              else Ok path) as [path'|e]; cbn [bind]; [|reflexivity].
    destruct (read_csv path'); reflexivity.
  - destruct (table_at s r) as [df|] eqn:Hr; [|discriminate].
    intros Heq; injection Heq as <-.
    apply loaded_ret; [lia | exact Hr].
Qed.

(** One test of the assembler: the loader and the concatenation, or
    nothing. *)
Lemma store_step (n : nat) (b : bool) (load : Store.M Store.ref)
    (pure : result table) (s : store) (confounds : Store.ref) (acc : table) :
  n <= confounds -> table_at s confounds = Some acc ->
  loaded n load s pure ->
  loaded n
    (if b
     then Store.bind load (fun sub => Store.concat_ref confounds sub)
     else Store.ret confounds)
    s
    (if b then (sub <- pure ;; Ok (concat acc sub)) else Ok acc).
Proof.
  intros Hn Hacc Hload; destruct b; [|apply loaded_ret; assumption].
  apply loaded_bind with (n0 := n) (g := fun sub => Ok (concat acc sub));
    [exact Hload|].
  intros r df fresh Hr Hdf.
  apply loaded_le with (n' := List.length (s ++ fresh)).
  - apply table_at_lt in Hacc. rewrite length_app; lia.
  - apply loaded_new. unfold Store.concat_ref, Store.bind.
    rewrite (store_read_run _ _ (table_at_app s fresh confounds Hacc)).
    rewrite (store_read_run _ _ Hdf). reflexivity.
Qed.

Lemma loaded_lift (A : Type) (n : nat) (a : A) (f : A -> Store.M Store.ref)
    (s : store) (pure : result table) :
  loaded n (f a) s pure -> loaded n (Store.bind (Store.lift (Ok a)) f) s pure.
Proof. intros Hf; exact Hf. Qed.

Lemma loaded_new_bind (n : nat) (o : object) (f : Store.ref -> Store.M Store.ref)
    (s : store) (pure : result table) :
  loaded n (f (List.length s)) (s ++ [o]) pure ->
  loaded n (Store.bind (Store.new o) f) s pure.
Proof.
  intros Hf. apply loaded_after with (n' := n) (m' := f (List.length s)) (pre := [o]);
    [lia | reflexivity | exact Hf].
Qed.

Lemma store_load_confounds_single_run (s : store) (file : Store.input)
    (file' : input) (strategy : strategy_arg) (motion : string)
    (pca_motion : Q) (wm_csf global_signal : string) :
  input_in s file = Some file' ->
  loaded (List.length s)
    (Store._load_confounds_single file strategy motion pca_motion
       wm_csf global_signal) s
    (_load_confounds_single file' strategy motion pca_motion wm_csf global_signal).
Proof.
  intros Hfile. unfold Store._load_confounds_single, _load_confounds_single.
  apply loaded_bind with (n0 := 0); [apply store_confounds2df_run, Hfile|].
  intros raw df fresh _ Hraw.
  destruct (_sanitize_strategy strategy) as [resolved|e]; cbn [bind].
  - set (s1 := s ++ fresh) in *.
    assert (Hlen : List.length s <= List.length s1)
      by (unfold s1; rewrite length_app; lia).
    clearbody s1.
    apply loaded_lift, loaded_new_bind.
    pose proof (table_at_end s1 empty_frame) as Hacc.
    pose proof (table_at_app s1 [Store.Named empty_frame] raw Hraw) as Hraw'.
    cbv beta.
    apply loaded_bind with (n0 := List.length s).
    { apply store_step; [lia | exact Hacc |].
      eapply loaded_le; [|apply store_load_motion_run, Hraw'].
      rewrite length_app; lia. }
    intros c1 acc1 fresh1 Hc1 Hacc1.
    apply loaded_bind with (n0 := List.length s).
    { apply store_step; [lia | exact Hacc1 |].
      eapply loaded_le; [|apply store_load_high_pass_run; do 1 apply table_at_app; exact Hraw'].
      rewrite !length_app; lia. }
    intros c2 acc2 fresh2 Hc2 Hacc2.
    apply loaded_bind with (n0 := List.length s).
    { apply store_step; [lia | exact Hacc2 |].
      eapply loaded_le; [|apply store_load_wm_csf_run; do 2 apply table_at_app; exact Hraw'].
      rewrite !length_app; lia. }
    intros c3 acc3 fresh3 Hc3 Hacc3.
    apply loaded_bind with (n0 := List.length s).
    { apply store_step; [lia | exact Hacc3 |].
      eapply loaded_le; [|apply store_load_global_run; do 3 apply table_at_app; exact Hraw'].
      rewrite !length_app; lia. }
    intros c4 acc4 fresh4 Hc4 Hacc4.
    apply loaded_ret; assumption.
  - exists []; rewrite app_nil_r; split; reflexivity.
Qed.

Lemma input_in_app (s fresh : store) (file : Store.input) (file' : input) :
  input_in s file = Some file' -> input_in (s ++ fresh) file = Some file'.
Proof.
  destruct file as [path|r]; cbn [input_in]; [trivial|].
  destruct (table_at s r) as [df|] eqn:Hr; [|discriminate].
  rewrite (table_at_app s fresh r Hr); trivial.
Qed.

Lemma inputs_in_app (s fresh : store) (files : list Store.input)
    (files' : list input) :
  inputs_in s files = Some files' -> inputs_in (s ++ fresh) files = Some files'.
Proof.
  revert files'; induction files as [|file rest IH]; intros files';
    cbn [inputs_in]; [trivial|].
  destruct (input_in s file) as [file'|] eqn:Hfile; [|discriminate].
  destruct (inputs_in s rest) as [rest'|]; [|discriminate].
  rewrite (input_in_app s fresh file Hfile), (IH rest' eq_refl); trivial.
Qed.

Lemma store_load_loop_run (n : nat) (strategy : strategy_arg) (motion : string)
    (pca_motion : Q) (wm_csf global_signal : string)
    (files : list Store.input) :
  forall (files' : list input) (confounds_out : list Store.ref)
         (tables_out : list table) (s : store),
    inputs_in s files = Some files' ->
    Forall2 (fun r df => table_at s r = Some df) confounds_out tables_out ->
    Forall (fun r => n <= r) confounds_out ->
    n <= List.length s ->
    exists fresh,
      snd (Store.load_loop files confounds_out strategy motion pca_motion
             wm_csf global_signal s) = s ++ fresh
      /\ match load_loop files' tables_out strategy motion pca_motion
                 wm_csf global_signal with
         | Ok dfs =>
             exists rs,
               fst (Store.load_loop files confounds_out strategy motion
                      pca_motion wm_csf global_signal s) = Ok rs
               /\ Forall (fun r => n <= r) rs
               /\ Forall2 (fun r df => table_at (s ++ fresh) r = Some df) rs dfs
         | Raise e =>
             fst (Store.load_loop files confounds_out strategy motion
                    pca_motion wm_csf global_signal s) = Raise e
         end.
Proof.
  induction files as [|file rest IH];
    intros files' confounds_out tables_out s Hfiles Hout Hfresh Hlen;
    cbn [inputs_in] in Hfiles.
  - injection Hfiles as <-. exists []; cbn [Store.load_loop load_loop Store.ret fst snd].
    rewrite app_nil_r. split; [reflexivity|].
    exists confounds_out; repeat split; assumption.
  - destruct (input_in s file) as [file'|] eqn:Hfile; [|discriminate].
    destruct (inputs_in s rest) as [rest'|] eqn:Hrest; [|discriminate].
    injection Hfiles as <-. cbn [Store.load_loop load_loop].
    destruct (store_load_confounds_single_run s file strategy motion pca_motion
                wm_csf global_signal Hfile) as (fresh & Hs & Hp).
    unfold Store.bind.
    destruct (Store._load_confounds_single file strategy motion pca_motion
                wm_csf global_signal s) as [res s1].
    cbn [fst snd] in Hs, Hp; subst s1.
    destruct (_load_confounds_single file' strategy motion pca_motion
                wm_csf global_signal) as [df|e]; cbn [bind].
    + destruct Hp as (r & -> & Hr & Hdf).
      destruct (IH rest' (confounds_out ++ [r]) (tables_out ++ [df]) (s ++ fresh))
        as (fresh' & Hs' & Hp').
      * apply inputs_in_app, Hrest.
      * apply Forall2_app; [|constructor; [exact Hdf | constructor]].
        revert Hout; apply Forall2_impl. intros r0 df0; apply table_at_app.
      * apply Forall_app; split; [exact Hfresh | constructor; [lia | constructor]].
      * rewrite length_app; lia.
      * exists (fresh ++ fresh'); rewrite app_assoc; split; [exact Hs' | exact Hp'].
    + subst res. exists fresh; split; reflexivity.
Qed.

Lemma store_load_confounds_single_arg (s : store) (one : Store.input)
    (strategy : strategy_arg) (motion : string) (pca_motion : Q)
    (wm_csf global_signal : string) :
  Store.load_confounds (Store.Single one) strategy motion pca_motion
    wm_csf global_signal s
  = match Store.load_loop [one] [] strategy motion pca_motion
            wm_csf global_signal s with
    | (Ok (first :: _), s') => (Ok (Store.OneFrame first), s')
    | (Ok [], s') => (Raise IndexError, s')
    | (Raise e, s') => (Raise e, s')
    end.
Proof.
  unfold Store.load_confounds, Store.bind; cbn [Store._sanitize_confounds Store.ret].
  destruct (Store.load_loop [one] [] strategy motion pca_motion
              wm_csf global_signal s) as [[[|first rest]|e] s']; reflexivity.
Qed.

Lemma store_load_confounds_many_arg (s : store) (several : list Store.input)
    (strategy : strategy_arg) (motion : string) (pca_motion : Q)
    (wm_csf global_signal : string) :
  Store.load_confounds (Store.Many several) strategy motion pca_motion
    wm_csf global_signal s
  = match Store.load_loop several [] strategy motion pca_motion
            wm_csf global_signal s with
    | (Ok rs, s') => (Ok (Store.FrameList rs), s')
    | (Raise e, s') => (Raise e, s')
    end.
Proof.
  unfold Store.load_confounds, Store.bind; cbn [Store._sanitize_confounds Store.ret].
  destruct (Store.load_loop several [] strategy motion pca_motion
              wm_csf global_signal s) as [[rs|e] s']; reflexivity.
Qed.

(** C9. In the store model, a call of the entry point on arguments whose
    references name tables of the store only adds objects to the store:
    every object the store held before the call, the raw tables passed in
    among them, is afterwards the object it was, with the same labels and
    the same rows, whether the call returns or raises. What the call returns
    are references to objects allocated during the call, and these objects
    are the tables that the function on values returns. *)
Theorem load_confounds_frame (s : store) (confounds_raw : Store.confounds_arg)
    (confounds_raw' : confounds_arg) (strategy : strategy_arg)
    (motion : string) (pca_motion : Q) (wm_csf global_signal : string) :
  arg_in s confounds_raw = Some confounds_raw' ->
  exists fresh,
    snd (Store.load_confounds confounds_raw strategy motion pca_motion
           wm_csf global_signal s) = s ++ fresh
    /\ (forall r o,
          nth_error s r = Some o ->
          nth_error (snd (Store.load_confounds confounds_raw strategy motion
                            pca_motion wm_csf global_signal s)) r = Some o)
    /\ match load_confounds confounds_raw' strategy motion pca_motion
               wm_csf global_signal with
       | Ok (OneFrame df) =>
           exists r,
             fst (Store.load_confounds confounds_raw strategy motion pca_motion
                    wm_csf global_signal s) = Ok (Store.OneFrame r)
             /\ List.length s <= r
             /\ table_at (s ++ fresh) r = Some df
       | Ok (FrameList dfs) =>
           exists rs,
             fst (Store.load_confounds confounds_raw strategy motion pca_motion
                    wm_csf global_signal s) = Ok (Store.FrameList rs)
             /\ Forall (fun r => List.length s <= r) rs
             /\ Forall2 (fun r df => table_at (s ++ fresh) r = Some df) rs dfs
       | Raise e =>
           fst (Store.load_confounds confounds_raw strategy motion pca_motion
                  wm_csf global_signal s) = Raise e
       end.
Proof.
  intros Harg.
  assert (Hkeep : forall fresh s',
             s' = s ++ fresh ->
             forall r o, nth_error s r = Some o -> nth_error s' r = Some o).
  { intros fresh s' -> r o Hr.
    rewrite nth_error_app1 by (apply nth_error_Some; congruence). exact Hr. }
  assert (Hloop : forall files files',
             inputs_in s files = Some files' ->
             exists fresh,
               snd (Store.load_loop files [] strategy motion pca_motion
                      wm_csf global_signal s) = s ++ fresh
               /\ match load_loop files' [] strategy motion pca_motion
                          wm_csf global_signal with
                  | Ok dfs =>
                      exists rs,
                        fst (Store.load_loop files [] strategy motion
                               pca_motion wm_csf global_signal s) = Ok rs
                        /\ Forall (fun r => List.length s <= r) rs
                        /\ Forall2 (fun r df => table_at (s ++ fresh) r = Some df) rs dfs
                  | Raise e =>
                      fst (Store.load_loop files [] strategy motion
                             pca_motion wm_csf global_signal s) = Raise e
                  end).
  { intros files files' Hfiles.
    apply store_load_loop_run; [exact Hfiles | constructor | constructor | lia]. }
  destruct confounds_raw as [one|several|]; cbn [arg_in] in Harg.
  - destruct (input_in s one) as [one'|] eqn:Hone; [|discriminate].
    injection Harg as <-.
    destruct (Hloop [one] [one']) as (fresh & Hs & Hp).
    { cbn [inputs_in]. rewrite Hone; reflexivity. }
    rewrite store_load_confounds_single_arg.
    unfold load_confounds. cbn [_sanitize_confounds bind].
    destruct (Store.load_loop [one] [] strategy motion pca_motion
                wm_csf global_signal s) as [res s1].
    cbn [fst snd] in Hs, Hp; subst s1.
    destruct (load_loop [one'] [] strategy motion pca_motion wm_csf global_signal)
      as [dfs|e]; cbn [bind].
    + destruct Hp as (rs & -> & Hfresh & Htables).
      destruct Htables as [|r df rs dfs Hr Hrest]; cbn [fst snd Store.raise Store.ret].
      * exists fresh; split; [reflexivity|]. split; [apply (Hkeep fresh); reflexivity|].
        reflexivity.
      * exists fresh; split; [reflexivity|]. split; [apply (Hkeep fresh); reflexivity|].
        exists r; repeat split; [|exact Hr]. inversion Hfresh; assumption.
    + subst res. exists fresh; split; [reflexivity|].
      split; [apply (Hkeep fresh); reflexivity | reflexivity].
  - destruct (inputs_in s several) as [several'|] eqn:Hseveral; [|discriminate].
    injection Harg as <-.
    destruct (Hloop several several' Hseveral) as (fresh & Hs & Hp).
    rewrite store_load_confounds_many_arg.
    unfold load_confounds. cbn [_sanitize_confounds bind].
    destruct (Store.load_loop several [] strategy motion pca_motion
                wm_csf global_signal s) as [res s1].
    cbn [fst snd] in Hs, Hp; subst s1.
    destruct (load_loop several' [] strategy motion pca_motion wm_csf global_signal)
      as [dfs|e]; cbn [bind].
    + destruct Hp as (rs & -> & Hfresh & Htables).
      exists fresh; split; [reflexivity|].
      split; [apply (Hkeep fresh); reflexivity|].
      exists rs; repeat split; assumption.
    + subst res. exists fresh; split; [reflexivity|].
      split; [apply (Hkeep fresh); reflexivity | reflexivity].
  - injection Harg as <-. exists []; rewrite app_nil_r.
    split; [reflexivity|]. split; [trivial | reflexivity].
Qed.

(** ** Paths *)

Lemma str_append_assoc (a b c : string) :
  ((a ++ b) ++ c)%string = (a ++ (b ++ c))%string.
Proof. induction a as [|x a IH]; simpl; [|rewrite IH]; reflexivity. Qed.

Lemma str_length_append (a b : string) :
  String.length (a ++ b) = String.length a + String.length b.
Proof. induction a as [|x a IH]; simpl; [|rewrite IH]; reflexivity. Qed.

(** Whether [s] starts with [key] is decided by the first [len(key)]
    characters of [s]. *)
Lemma startswith_app_long (key a b : string) :
  String.length key <= String.length a ->
  startswith key (a ++ b) = startswith key a.
Proof.
  revert a; induction key as [|k key IH]; intros a Hlen; [reflexivity|].
  destruct a as [|c a]; simpl in *; [lia|].
  rewrite IH by lia; reflexivity.
Qed.

Lemma str_in_cons_false (key : string) (c : ascii) (s : string) :
  str_in key (String c s) = false ->
  startswith key (String c s) = false /\ str_in key s = false.
Proof. cbn [str_in]; apply orb_false_iff. Qed.

(** [s.split(sep)] is [[s]] when [sep] does not occur in [s]. *)
Lemma split_go_absent (sep s cur : string) :
  str_in sep s = false ->
  split_go sep s 0 cur = [(cur ++ s)%string].
Proof.
  revert cur; induction s as [|c s IH]; intros cur Hin; cbn [split_go].
  - rewrite append_empty_r; reflexivity.
  - apply str_in_cons_false in Hin as (Hstart & Hin).
    rewrite Hstart, IH by exact Hin.
    rewrite str_append_assoc; reflexivity.
Qed.

Lemma split_absent (s sep : string) :
  str_in sep s = false -> split s sep = [s].
Proof. intros Hin; unfold split; rewrite split_go_absent by exact Hin; reflexivity. Qed.

(** The pieces of a string in which "space-" occurs once, after [before]. *)
Lemma split_go_space (before rest cur : string) :
  str_in "space-" (before ++ "space") = false ->
  str_in "space-" rest = false ->
  split_go "space-" (before ++ "space-" ++ rest) 0 cur
  = [(cur ++ before)%string; rest].
Proof.
  intros Hbefore Hrest; revert cur;
    induction before as [|c before IH]; intros cur.
  - cbn. rewrite append_empty_r, split_go_absent by exact Hrest; reflexivity.
  - cbn [String.append] in Hbefore.
    apply str_in_cons_false in Hbefore as (Hstart & Hbefore).
    assert (Hnot : startswith "space-" (String c (before ++ "space-" ++ rest)) = false).
    { replace (String c (before ++ "space-" ++ rest))
        with ((String c (before ++ "space")) ++ "-" ++ rest)%string.
      - rewrite startswith_app_long; [exact Hstart|].
        cbn [String.length]; rewrite str_length_append; simpl; lia.
      - cbn [String.append]; rewrite str_append_assoc; reflexivity. }
    remember ("space-" ++ rest)%string as tail eqn:Htail.
    cbn [String.append split_go]. rewrite Hnot. subst tail.
    rewrite IH by exact Hbefore.
    rewrite str_append_assoc; reflexivity.
Qed.

(** Once past the end of the text, nothing is left to rewrite. *)
Lemma replace_go_skip_all (old new s : string) (skip : nat) :
  String.length s <= skip -> replace_go old new s skip = EmptyString.
Proof.
  revert skip; induction s as [|c s IH]; intros skip Hlen; [reflexivity|].
  destruct skip as [|skip]; simpl in *; [lia | apply IH; lia].
Qed.

Lemma startswith_refl (s : string) : startswith s s = true.
Proof. apply startswith_spec; exists EmptyString; symmetry; apply append_empty_r. Qed.

Lemma replace_go_self (old new : string) :
  old <> EmptyString -> replace_go old new old 0 = new.
Proof.
  destruct old as [|c tl]; [congruence|]; intros _.
  cbn [replace_go]. rewrite startswith_refl.
  rewrite replace_go_skip_all by (simpl; lia).
  apply append_empty_r.
Qed.

(** [s.replace(suffix, new)] when [suffix] is "_space-..." and ends [s], and
    "space-" does not occur before it. *)
Lemma replace_space_suffix (before rest new : string) :
  str_in "space-" (before ++ "_space") = false ->
  replace (before ++ "_space-" ++ rest) ("_space-" ++ rest) new
  = (before ++ new)%string.
Proof.
  unfold replace; intros Hbefore.
  induction before as [|c before IH].
  - change (replace_go ("_space-" ++ rest) new ("_space-" ++ rest) 0 = new).
    apply replace_go_self. discriminate.
  - cbn [String.append] in Hbefore.
    apply str_in_cons_false in Hbefore as (_ & Hbefore).
    assert (Hnot : startswith ("_space-" ++ rest)
                     (String c (before ++ "_space-" ++ rest)) = false).
    { destruct (startswith ("_space-" ++ rest)
                  (String c (before ++ "_space-" ++ rest))) eqn:Hstart;
        [exfalso | reflexivity].
      apply startswith_spec in Hstart as (post & Hpost).
      cbn [String.append] in Hpost. injection Hpost as _ Hpost.
      assert (Hocc : startswith "space-" (before ++ "_space") = true).
      { rewrite <- (startswith_app_long "space-" (before ++ "_space") ("-" ++ rest))
          by (rewrite str_length_append; simpl; lia).
        rewrite str_append_assoc.
        change ("_space" ++ "-" ++ rest)%string
          with (String "_" (String "s" (String "p" (String "a" (String "c"
                 (String "e" (String "-" rest))))))).
        rewrite Hpost. reflexivity. }
      destruct (before ++ "_space")%string as [|x y];
        cbn [str_in] in Hbefore; rewrite Hocc in Hbefore; discriminate Hbefore. }
    remember ("_space-" ++ rest)%string as suffix eqn:Hsuffix.
    cbn [String.append replace_go]. rewrite Hnot, IH by exact Hbefore.
    reflexivity.
Qed.

(** X1. The path of an image, [<before>_space-<rest>] with "nii" among its
    last six characters and "space-" occurring once, is read from the
    confounds file beside it, [<before>_desc-confounds_regressors.tsv]; a
    path without "nii" among its last six characters is read as given. *)
Theorem confounds2df_sibling_file (before rest : string) :
  (str_in "space-" (before ++ "_space") = false ->
   str_in "space-" rest = false ->
   str_in "nii" (last_chars 6 (before ++ "_space-" ++ rest)) = true ->
   _confounds2df (Path (before ++ "_space-" ++ rest))
   = read_csv (before ++ "_desc-confounds_regressors.tsv"))
  /\ (forall path,
        str_in "nii" (last_chars 6 path) = false ->
        _confounds2df (Path path) = read_csv path).
Proof.
  split.
  - intros Hbefore Hrest Hnii. cbn [_confounds2df]. rewrite Hnii.
    assert (Hsplit : split (before ++ "_space-" ++ rest) "space-"
                     = [(before ++ "_")%string; rest]).
    { unfold split.
      replace (before ++ "_space-" ++ rest)%string
        with ((before ++ "_") ++ "space-" ++ rest)%string
        by (rewrite str_append_assoc; reflexivity).
      rewrite split_go_space; [reflexivity | | exact Hrest].
      rewrite str_append_assoc; exact Hbefore. }
    rewrite Hsplit. cbn [nth_error bind].
    rewrite replace_space_suffix by exact Hbefore. reflexivity.
  - intros path Hnii. cbn [_confounds2df]. rewrite Hnii. reflexivity.
Qed.

(** X2. The path of an image in which "space-" does not occur has no
    confounds file beside it: the call raises [IndexError], and reads no
    file. *)
Theorem confounds2df_no_space (path : string) :
  str_in "nii" (last_chars 6 path) = true ->
  str_in "space-" path = false ->
  _confounds2df (Path path) = Raise IndexError.
Proof.
  intros Hnii Hspace. cbn [_confounds2df]. rewrite Hnii.
  rewrite split_absent by exact Hspace. reflexivity.
Qed.

(** ** More on load_confounds *)

Lemma mapM_first_Raise {A B : Type} (f : A -> result B) (before : list A)
    (x : A) (after : list A) (e : error) :
  Forall (fun a => exists b, f a = Ok b) before ->
  f x = Raise e ->
  mapM f (before ++ x :: after) = Raise e.
Proof.
  intros Hbefore Hx; induction Hbefore as [|a before (b & Ha) _ IH]; cbn [mapM app].
  - rewrite Hx; reflexivity.
  - rewrite Ha, IH; reflexivity.
Qed.

Lemma load_confounds_many_mapM (inputs : list input) (strategy : strategy_arg)
    (motion : string) (pca_motion : Q) (wm_csf global_signal : string) :
  load_confounds (Many inputs) strategy motion pca_motion wm_csf global_signal
  = (dfs <- mapM (fun file =>
                    _load_confounds_single file strategy motion pca_motion
                      wm_csf global_signal) inputs ;;
     Ok (FrameList dfs)).
Proof.
  unfold load_confounds; cbn [_sanitize_confounds bind].
  rewrite load_loop_mapM. destruct (mapM _ inputs); reflexivity.
Qed.

Lemma load_confounds_single_arg (one : input) (strategy : strategy_arg)
    (motion : string) (pca_motion : Q) (wm_csf global_signal : string) :
  load_confounds (Single one) strategy motion pca_motion wm_csf global_signal
  = (df <- _load_confounds_single one strategy motion pca_motion
             wm_csf global_signal ;;
     Ok (OneFrame df)).
Proof.
  unfold load_confounds; cbn [_sanitize_confounds bind load_loop].
  destruct (_load_confounds_single one _ _ _ _ _); reflexivity.
Qed.

(** X3. The entry point fails fast: on a list of inputs it raises the
    exception of the first input whose loading raises, whatever comes after
    it, and returns no table; on a single input it raises that input's
    exception; an argument that is no path, table or list raises the
    input-type error; the empty list returns the empty list. *)
Theorem load_confounds_fail_fast (strategy : strategy_arg) (motion : string)
    (pca_motion : Q) (wm_csf global_signal : string) :
  (forall before file after e,
     Forall (fun f => exists df,
                _load_confounds_single f strategy motion pca_motion
                  wm_csf global_signal = Ok df) before ->
     _load_confounds_single file strategy motion pca_motion
       wm_csf global_signal = Raise e ->
     load_confounds (Many (before ++ file :: after)) strategy motion pca_motion
       wm_csf global_signal = Raise e)
  /\ (forall one e,
        _load_confounds_single one strategy motion pca_motion
          wm_csf global_signal = Raise e ->
        load_confounds (Single one) strategy motion pca_motion
          wm_csf global_signal = Raise e)
  /\ load_confounds OtherInput strategy motion pca_motion wm_csf global_signal
     = Raise InvalidInputType
  /\ load_confounds (Many []) strategy motion pca_motion wm_csf global_signal
     = Ok (FrameList []).
Proof.
  split; [|split; [|split; reflexivity]].
  - intros before file after e Hbefore Hfile.
    rewrite load_confounds_many_mapM.
    rewrite mapM_first_Raise with (e := e); [reflexivity | exact Hbefore | exact Hfile].
  - intros one e Hone. rewrite load_confounds_single_arg, Hone; reflexivity.
Qed.

(** X4. A single input gives what the list of that one input gives, outside
    the list: the same table, or the same exception. *)
Theorem load_confounds_single_vs_list (one : input) (strategy : strategy_arg)
    (motion : string) (pca_motion : Q) (wm_csf global_signal : string) :
  (forall df,
     load_confounds (Single one) strategy motion pca_motion
       wm_csf global_signal = Ok (OneFrame df)
     <-> load_confounds (Many [one]) strategy motion pca_motion
           wm_csf global_signal = Ok (FrameList [df]))
  /\ (forall e,
        load_confounds (Single one) strategy motion pca_motion
          wm_csf global_signal = Raise e
        <-> load_confounds (Many [one]) strategy motion pca_motion
              wm_csf global_signal = Raise e).
Proof.
  rewrite load_confounds_single_arg, load_confounds_many_mapM. cbn [mapM].
  destruct (_load_confounds_single one strategy motion pca_motion
              wm_csf global_signal) as [out|err]; cbn [bind].
  - split; [intros df | intros e]; split; intros Heq;
      try discriminate; injection Heq as ->; reflexivity.
  - split; [intros df | intros e]; split; intros Heq;
      try discriminate; injection Heq as ->; reflexivity.
Qed.

(** ** More on _add_suffix and _check_params *)

Lemma check_params_Ok_iff (confounds_raw : table) (params : list string) :
  _check_params confounds_raw params = Ok tt
  <-> Forall (fun par => In par (columns confounds_raw)) params.
Proof. split; [apply check_params_Ok_inv | apply check_params_present]. Qed.

Lemma suffixes_in_full (model par name : string) :
  In name (suffixes model par) -> In name (suffixes "full" par).
Proof.
  destruct (suffixes_cases model) as [(-> & E) | [(-> & E) | [(-> & E) | (_ & _ & _ & E)]]];
    rewrite ?E; simpl; tauto.
Qed.

Lemma add_suffix_incl_full (params : list string) (model : string) :
  incl (_add_suffix params model) (_add_suffix params "full").
Proof.
  intros name. rewrite !add_suffix_flat_map, !in_app_iff, !in_flat_map.
  intros [Hbase | (par & Hpar & Hname)]; [left; exact Hbase|].
  right; exists par; split; [exact Hpar | apply (suffixes_in_full model), Hname].
Qed.

(** A selection loader returns exactly when its check passes. *)
Lemma select_after_check (confounds_raw : table) (params : list string) :
  (exists out, (_check_params confounds_raw params ;;;
                getitem confounds_raw params) = Ok out)
  <-> _check_params confounds_raw params = Ok tt.
Proof.
  split.
  - intros (out & Hout). apply bind_Ok_inv in Hout as ([] & Hcheck & _); exact Hcheck.
  - intros Hcheck. rewrite Hcheck; cbn [bind].
    rewrite getitem_present by (apply check_params_Ok_inv, Hcheck).
    eexists; reflexivity.
Qed.

Lemma load_motion_plain (confounds_raw : table) (motion : string) (pca_motion : Q) :
  ~ ((0 < pca_motion)%Q /\ (pca_motion < 1)%Q) ->
  _load_motion confounds_raw motion pca_motion
  = (_check_params confounds_raw (_add_suffix motion_basic motion) ;;;
     getitem confounds_raw (_add_suffix motion_basic motion)).
Proof.
  intros Hout. rewrite load_motion_unfold.
  destruct (py_lt 0%Q pca_motion && py_lt pca_motion 1%Q) eqn:Hp.
  - apply in_unit_interval_iff in Hp; contradiction.
  - destruct (_check_params confounds_raw _); cbn [bind]; [|reflexivity].
    destruct (getitem confounds_raw _); reflexivity.
Qed.

(** X5. The expansion mode is not validated: a mode that is none of
    "derivatives", "power2", "full" (a misspelt one, say) selects the base
    names only, as "basic" does, and the three loaders that take a mode
    behave under it as under "basic". *)
Theorem add_suffix_unknown_mode (model : string) :
  model <> "derivatives" -> model <> "power2" -> model <> "full" ->
  (forall params, _add_suffix params model = params)
  /\ (forall (confounds_raw : table) pca_motion,
        _load_motion confounds_raw model pca_motion
        = _load_motion confounds_raw "basic" pca_motion)
  /\ (forall confounds_raw : table,
        _load_wm_csf confounds_raw model = _load_wm_csf confounds_raw "basic")
  /\ (forall confounds_raw : table,
        _load_global confounds_raw model = _load_global confounds_raw "basic").
Proof.
  intros Hd Hp Hf.
  assert (Hsame : forall params, _add_suffix params model = params).
  { intros params. rewrite add_suffix_flat_map.
    destruct (suffixes_cases model) as [(E & _) | [(E & _) | [(E & _) | (_ & _ & _ & E)]]];
      try contradiction.
    rewrite E, flat_map_nil, app_nil_r; reflexivity. }
  split; [exact Hsame|]. split; [|split].
  - intros confounds_raw pca_motion. rewrite !load_motion_unfold, Hsame; reflexivity.
  - intros confounds_raw. unfold _load_wm_csf. rewrite Hsame; reflexivity.
  - intros confounds_raw. unfold _load_global. rewrite Hsame; reflexivity.
Qed.

(** X6. Under every mode the base names are checked before the derived
    ones: when a base name labels no column, the error names the first such
    base name, whatever derived columns are missing too. So
    the global-signal loader on a table without [global_signal], and the
    tissue loader on a table without [csf], raise for that name under every
    mode. *)
Theorem check_params_base_first (confounds_raw : table) (model : string) :
  (forall before par after,
     Forall (fun p => In p (columns confounds_raw)) before ->
     ~ In par (columns confounds_raw) ->
     _check_params confounds_raw (_add_suffix (before ++ par :: after) model)
     = Raise (ParamNotFound par))
  /\ (~ In "global_signal" (columns confounds_raw) ->
      _load_global confounds_raw model = Raise (ParamNotFound "global_signal"))
  /\ (~ In "csf" (columns confounds_raw) ->
      _load_wm_csf confounds_raw model = Raise (ParamNotFound "csf"))
  /\ (In "csf" (columns confounds_raw) ->
      ~ In "white_matter" (columns confounds_raw) ->
      _load_wm_csf confounds_raw model = Raise (ParamNotFound "white_matter")).
Proof.
  assert (Hfirst : forall before par after,
             Forall (fun p => In p (columns confounds_raw)) before ->
             ~ In par (columns confounds_raw) ->
             _check_params confounds_raw (_add_suffix (before ++ par :: after) model)
             = Raise (ParamNotFound par)).
  { intros before par after Hbefore Hpar.
    rewrite add_suffix_flat_map, <- app_assoc. cbn [app].
    apply check_params_first; assumption. }
  split; [exact Hfirst|]. split; [|split].
  - intros Hmissing. unfold _load_global.
    pose proof (Hfirst [] "global_signal" [] (Forall_nil _) Hmissing) as Hcheck.
    cbn [app] in Hcheck. rewrite Hcheck; reflexivity.
  - intros Hmissing. unfold _load_wm_csf.
    pose proof (Hfirst [] "csf" ["white_matter"] (Forall_nil _) Hmissing) as Hcheck.
    cbn [app] in Hcheck. rewrite Hcheck; reflexivity.
  - intros Hcsf Hmissing. unfold _load_wm_csf.
    assert (Hbefore : Forall (fun p => In p (columns confounds_raw)) ["csf"])
      by (constructor; [exact Hcsf | constructor]).
    pose proof (Hfirst ["csf"] "white_matter" [] Hbefore Hmissing) as Hcheck.
    cbn [app] in Hcheck. rewrite Hcheck; reflexivity.
Qed.

(** X7. "full" asks for the most: a table that passes the check of a list of
    base names under "full" passes it under every mode, and a table on which
    a loader returns under "full" is one on which it returns under every
    mode (for the motion loader, without reduction). *)
Theorem check_params_full_covers (confounds_raw : table) :
  (forall params model,
     _check_params confounds_raw (_add_suffix params "full") = Ok tt ->
     _check_params confounds_raw (_add_suffix params model) = Ok tt)
  /\ (forall model,
        (exists out, _load_wm_csf confounds_raw "full" = Ok out) ->
        exists out, _load_wm_csf confounds_raw model = Ok out)
  /\ (forall model,
        (exists out, _load_global confounds_raw "full" = Ok out) ->
        exists out, _load_global confounds_raw model = Ok out)
  /\ (forall model pca_motion,
        ~ ((0 < pca_motion)%Q /\ (pca_motion < 1)%Q) ->
        (exists out, _load_motion confounds_raw "full" pca_motion = Ok out) ->
        exists out, _load_motion confounds_raw model pca_motion = Ok out).
Proof.
  assert (Hcover : forall params model,
             _check_params confounds_raw (_add_suffix params "full") = Ok tt ->
             _check_params confounds_raw (_add_suffix params model) = Ok tt).
  { intros params model Hfull. apply check_params_Ok_iff.
    apply check_params_Ok_iff in Hfull. rewrite Forall_forall in *.
    intros name Hname. apply Hfull, (add_suffix_incl_full params model), Hname. }
  split; [exact Hcover|]. split; [|split].
  - intros model Hfull. unfold _load_wm_csf in *.
    apply select_after_check, Hcover. apply select_after_check, Hfull.
  - intros model Hfull. unfold _load_global in *.
    apply select_after_check, Hcover. apply select_after_check, Hfull.
  - intros model pca_motion Hout Hfull. rewrite load_motion_plain in * by exact Hout.
    apply select_after_check, Hcover. apply select_after_check, Hfull.
Qed.

(** ** More on the loaders and on _load_confounds_single *)

Lemma matching_incl (key : string) (cols : list string) :
  Forall (fun name => In name cols) (matching key cols).
Proof.
  apply Forall_forall. intros name Hname.
  apply filter_In in Hname as (Hin & _); exact Hin.
Qed.

Lemma find_confounds_cosine (confounds_raw : table) :
  _find_confounds confounds_raw (KeywordList ["cosine"])
  = match matching "cosine" (columns confounds_raw) with
    | [] => Raise (KeyNotFound "cosine")
    | found => Ok found
    end.
Proof.
  unfold _find_confounds; cbn [find_loop]. rewrite scan_columns_spec. cbn [orb app].
  destruct (existsb (str_in "cosine") (columns confounds_raw)) eqn:Hex; cbn [negb].
  - destruct (matching "cosine" (columns confounds_raw)) as [|name found] eqn:Hm;
      [|reflexivity].
    apply matching_nil_iff in Hm; congruence.
  - apply matching_nil_iff in Hex; rewrite Hex; reflexivity.
Qed.

Lemma load_high_pass_unfold (confounds_raw : table) :
  _load_high_pass confounds_raw
  = match matching "cosine" (columns confounds_raw) with
    | [] => Raise (KeyNotFound "cosine")
    | found => getitem confounds_raw found
    end.
Proof.
  unfold _load_high_pass. rewrite find_confounds_cosine.
  destruct (matching "cosine" (columns confounds_raw)); reflexivity.
Qed.

(** X8. The high-pass loader raises the no-match error for "cosine" when no
    column name contains "cosine"; otherwise it returns, with as many rows as
    the table, the columns whose name contains "cosine", however many they
    are; when the table's labels are pairwise distinct these columns come in
    the table's order, each with the table's cells. *)
Theorem load_high_pass_spec (confounds_raw : table) :
  (matching "cosine" (columns confounds_raw) = [] ->
   _load_high_pass confounds_raw = Raise (KeyNotFound "cosine"))
  /\ (matching "cosine" (columns confounds_raw) <> [] ->
      exists out,
        _load_high_pass confounds_raw = Ok out
        /\ List.length (values out) = List.length (values confounds_raw)
        /\ (NoDup (columns confounds_raw) ->
            columns out = filter (str_in "cosine") (columns confounds_raw)
            /\ forall name, In name (columns out) ->
                            column out name = column confounds_raw name)).
Proof.
  rewrite load_high_pass_unfold. split.
  - intros ->; reflexivity.
  - intros Hsome.
    destruct (matching "cosine" (columns confounds_raw)) as [|name found] eqn:Hm;
      [congruence|]. rewrite <- Hm.
    pose proof (matching_incl "cosine" (columns confounds_raw)) as Hincl.
    rewrite (getitem_present confounds_raw Hincl).
    eexists; split; [reflexivity|]. split; [apply length_map|].
    intros Hnd.
    destruct (getitem_unique confounds_raw Hnd Hincl) as (out & Hout & Hcols & _ & Hcells).
    rewrite (getitem_present confounds_raw Hincl) in Hout. injection Hout as Hout.
    rewrite Hout. split; [exact Hcols|].
    intros name' Hname. apply Hcells. rewrite <- Hcols; exact Hname.
Qed.

Lemma select_after_check_Raise (confounds_raw : table) (params : list string)
    (e : error) :
  (_check_params confounds_raw params ;;; getitem confounds_raw params) = Raise e ->
  exists par, In par params /\ ~ In par (columns confounds_raw)
              /\ e = ParamNotFound par.
Proof.
  destruct (_check_params confounds_raw params) as [[]|e'] eqn:Hcheck; cbn [bind].
  - rewrite getitem_present by (apply check_params_Ok_inv, Hcheck). discriminate.
  - intros Heq; injection Heq as <-. apply (check_params_Raise_inv _ _ Hcheck).
Qed.

Lemma load_motion_Raise_inv (confounds_raw : table) (motion : string)
    (pca_motion : Q) (e : error) :
  _load_motion confounds_raw motion pca_motion = Raise e ->
  (exists par, e = ParamNotFound par /\ ~ In par (columns confounds_raw))
  \/ (((0 < pca_motion)%Q /\ (pca_motion < 1)%Q)
      /\ exists X, fit_transform pca_motion X = Raise e).
Proof.
  rewrite load_motion_unfold.
  destruct (_check_params confounds_raw (_add_suffix motion_basic motion))
    as [[]|e'] eqn:Hcheck; cbn [bind].
  - rewrite getitem_present by (apply check_params_Ok_inv, Hcheck). cbn [bind].
    destruct (py_lt 0%Q pca_motion && py_lt pca_motion 1%Q) eqn:Hp; [|discriminate].
    unfold _pca_motion.
    match goal with
    | |- context [fit_transform pca_motion ?X] =>
        destruct (fit_transform pca_motion X) as [t|e'] eqn:Hfit
    end; cbn [bind]; [discriminate|].
    intros Heq; injection Heq as <-. right.
    split; [apply in_unit_interval_iff, Hp | eexists; exact Hfit].
  - intros Heq; injection Heq as <-.
    destruct (check_params_Raise_inv _ _ Hcheck) as (par & _ & Hpar & ->).
    left; exists par; split; [reflexivity | exact Hpar].
Qed.

Lemma run_loaders_first_Raise (load : string -> result table)
    (before : list string) (category : string) (after : list string)
    (confounds : table) (e : error) :
  Forall (fun c => exists sub, load c = Ok sub) before ->
  load category = Raise e ->
  run_loaders load (before ++ category :: after) confounds = Raise e.
Proof.
  intros Hbefore Hcat; revert confounds;
    induction Hbefore as [|c before (sub & Hc) _ IH]; intros confounds;
    cbn [run_loaders app].
  - rewrite Hcat; reflexivity.
  - rewrite Hc; cbn [bind]. apply IH.
Qed.

Lemma run_loaders_Raise_inv (load : string -> result table)
    (categories : list string) (confounds : table) (e : error) :
  run_loaders load categories confounds = Raise e ->
  exists category, In category categories /\ load category = Raise e.
Proof.
  revert confounds; induction categories as [|c rest IH]; intros confounds;
    cbn [run_loaders]; [discriminate|].
  destruct (load c) as [sub|e'] eqn:Hc; cbn [bind].
  - intros Hrest. destruct (IH _ Hrest) as (category & Hin & Hcat).
    exists category; split; [right; exact Hin | exact Hcat].
  - intros Heq; injection Heq as <-. exists c; split; [left; reflexivity | exact Hc].
Qed.

(** X9. A resolved strategy is a custom list that resolves to itself, and
    the assembler gives for a strategy what it gives for the list the
    strategy resolves to; so the preset "minimal" is the custom list
    [["motion"; "high_pass"; "wm_csf"]] and "minimal_glob" is that list with
    "global". *)
Theorem preset_as_custom_list (confounds_raw : input) (strategy : strategy_arg)
    (resolved : list string) (motion : string) (pca_motion : Q)
    (wm_csf global_signal : string) :
  _sanitize_strategy strategy = Ok resolved ->
  _sanitize_strategy (StrategyList resolved) = Ok resolved
  /\ _load_confounds_single confounds_raw strategy motion pca_motion
       wm_csf global_signal
     = _load_confounds_single confounds_raw (StrategyList resolved) motion
         pca_motion wm_csf global_signal.
Proof.
  intros Hresolved.
  assert (Hlist : _sanitize_strategy (StrategyList resolved) = Ok resolved).
  { cbn [_sanitize_strategy].
    rewrite check_confounds_all; [reflexivity|].
    apply (sanitize_strategy_supported strategy Hresolved). }
  split; [exact Hlist|].
  rewrite !load_confounds_single_run, Hresolved, Hlist; reflexivity.
Qed.

(** X10. The exceptions of the assembler come in the order of its steps: a
    failure to read the input is raised whatever the strategy is; then an
    invalid strategy is raised whatever the table holds; then, among the
    loaders of the strategy in canonical order, the first one that raises
    gives the exception. *)
Theorem load_confounds_single_error_order (confounds_raw : input)
    (strategy : strategy_arg) (motion : string) (pca_motion : Q)
    (wm_csf global_signal : string) (e : error) :
  (_confounds2df confounds_raw = Raise e ->
   _load_confounds_single confounds_raw strategy motion pca_motion
     wm_csf global_signal = Raise e)
  /\ (forall df,
        _confounds2df confounds_raw = Ok df ->
        _sanitize_strategy strategy = Raise e ->
        _load_confounds_single confounds_raw strategy motion pca_motion
          wm_csf global_signal = Raise e)
  /\ (forall df resolved before category after,
        _confounds2df confounds_raw = Ok df ->
        _sanitize_strategy strategy = Ok resolved ->
        filter (fun c => str_in_list c resolved)
               ["motion"; "high_pass"; "wm_csf"; "global"]
        = before ++ category :: after ->
        Forall (fun c => exists sub,
                   loader df motion pca_motion wm_csf global_signal c = Ok sub)
               before ->
        loader df motion pca_motion wm_csf global_signal category = Raise e ->
        _load_confounds_single confounds_raw strategy motion pca_motion
          wm_csf global_signal = Raise e).
Proof.
  rewrite load_confounds_single_run. split; [|split].
  - intros ->; reflexivity.
  - intros df -> ->; reflexivity.
  - intros df resolved before category after -> -> Hsplit Hbefore Hcat.
    cbn [bind]. unfold invoked, canonical_order. rewrite Hsplit.
    apply run_loaders_first_Raise; assumption.
Qed.

(** X11. What the assembler can raise: the exception of reading the input
    (the [IndexError] of a path without "space-", or what [read_csv]
    raises); the exception of the strategy; the missing-parameter error, for
    a name that labels no column; the no-match error for "cosine", when no
    column name contains it; or, under reduction, what the decomposition
    raises. The [KeyError] of a selection by labels never escapes. *)
Theorem load_confounds_single_exceptions (confounds_raw : input)
    (strategy : strategy_arg) (motion : string) (pca_motion : Q)
    (wm_csf global_signal : string) (e : error) :
  _load_confounds_single confounds_raw strategy motion pca_motion
    wm_csf global_signal = Raise e ->
  (exists path,
     confounds_raw = Path path
     /\ (e = IndexError \/ exists path', read_csv path' = Raise e))
  \/ exists df,
       _confounds2df confounds_raw = Ok df
       /\ (_sanitize_strategy strategy = Raise e
           \/ (exists par, e = ParamNotFound par /\ ~ In par (columns df))
           \/ (e = KeyNotFound "cosine"
               /\ filter (str_in "cosine") (columns df) = [])
           \/ (((0 < pca_motion)%Q /\ (pca_motion < 1)%Q)
               /\ exists X, fit_transform pca_motion X = Raise e)).
Proof.
  rewrite load_confounds_single_run.
  destruct (_confounds2df confounds_raw) as [df|e'] eqn:Hdf; cbn [bind].
  - intros Hraise. right; exists df; split; [reflexivity|].
    destruct (_sanitize_strategy strategy) as [resolved|e'] eqn:Hres; cbn [bind] in Hraise.
    + right.
      apply run_loaders_Raise_inv in Hraise as (category & Hin & Hcat).
      apply invoked_In in Hin as (_ & Hin).
      unfold loader in Hcat.
      destruct Hin as [<-|[<-|[<-|[<-|[]]]]]; cbn [String.eqb Ascii.eqb Bool.eqb] in Hcat.
      * apply load_motion_Raise_inv in Hcat as [Hpar | Hfit];
          [left; exact Hpar | right; right; exact Hfit].
      * rewrite load_high_pass_unfold in Hcat.
        destruct (matching "cosine" (columns df)) as [|name found] eqn:Hm.
        -- injection Hcat as <-. right; left; split; [reflexivity | exact Hm].
        -- rewrite <- Hm in Hcat.
           rewrite getitem_present in Hcat by apply matching_incl. discriminate.
      * apply select_after_check_Raise in Hcat as (par & _ & Hpar & ->).
        left; exists par; split; [reflexivity | exact Hpar].
      * apply select_after_check_Raise in Hcat as (par & _ & Hpar & ->).
        left; exists par; split; [reflexivity | exact Hpar].
    + left; injection Hraise as ->; reflexivity.
  - intros Heq; injection Heq as <-. left.
    destruct confounds_raw as [path|df]; [|discriminate].
    exists path; split; [reflexivity|].
    cbn [_confounds2df] in Hdf.
    destruct (str_in "nii" (last_chars 6 path)).
    + destruct (nth_error (split path "space-") 1) as [rest|]; cbn [bind] in Hdf.
      * right; eexists; exact Hdf.
      * left; injection Hdf as <-; reflexivity.
    + right; eexists; exact Hdf.
Qed.

(** ** Shape and content of the assembled table *)

Lemma map_seq_nth {A B : Type} (f : A -> B) (l : list A) (d : A) :
  map (fun i => f (nth i l d)) (seq 0 (List.length l)) = map f l.
Proof.
  induction l as [|x l IH]; [reflexivity|].
  cbn [List.length seq map nth]. f_equal.
  rewrite <- seq_shift, map_map. exact IH.
Qed.

Lemma getitem_shape (df : table) (names : list string) (out : table) :
  getitem df names = Ok out ->
  rectangular out /\ List.length (values out) = List.length (values df).
Proof.
  unfold getitem.
  destruct (filter (fun n => negb (str_in_list n (columns df))) names); [|discriminate].
  intros Heq; injection Heq as <-. unfold rectangular; cbn [columns values]. split.
  - apply Forall_forall. intros row Hrow.
    apply in_map_iff in Hrow as (row' & <- & _).
    unfold take. rewrite !length_map; reflexivity.
  - apply length_map.
Qed.

Lemma row_or_nan_length (df : table) (i : nat) :
  rectangular df -> List.length (row_or_nan df i) = List.length (columns df).
Proof.
  intros Hrect; unfold row_or_nan.
  destruct (nth_in_or_default i (values df) (repeat NaN (List.length (columns df))))
    as [Hin | ->].
  - unfold rectangular in Hrect. rewrite Forall_forall in Hrect. apply Hrect, Hin.
  - apply repeat_length.
Qed.

Lemma concat_empty_l (b : table) : concat empty_frame b = b.
Proof.
  destruct b as [cols rows]. unfold concat; cbn [columns values app List.length Nat.max].
  f_equal. unfold row_or_nan; cbn [columns values List.length repeat].
  transitivity (map (fun row : list (cell value) => row) rows); [|apply map_id].
  rewrite <- (map_seq_nth (fun row => row) rows (repeat NaN (List.length cols))).
  apply map_ext. intros i. destruct i; reflexivity.
Qed.

Lemma concat_shape (a b : table) (R : nat) :
  rectangular a -> rectangular b ->
  List.length (values a) = R -> List.length (values b) = R ->
  rectangular (concat a b) /\ List.length (values (concat a b)) = R.
Proof.
  intros Ha Hb Hra Hrb. unfold rectangular, concat; cbn [columns values]. split.
  - apply Forall_forall. intros row Hrow.
    apply in_map_iff in Hrow as (i & <- & _).
    rewrite !length_app, !row_or_nan_length by assumption. reflexivity.
  - rewrite length_map, length_seq, Hra, Hrb. apply Nat.max_id.
Qed.

Lemma index_of_app_l (name : string) (a b : list string) :
  In name a -> index_of name (a ++ b) = index_of name a.
Proof.
  induction a as [|c a IH]; cbn [index_of app]; [intros []|].
  intros Hin. destruct (String.eqb_spec c name) as [->|Hne]; [reflexivity|].
  destruct Hin as [Heq|Hin]; [congruence | rewrite IH by exact Hin; reflexivity].
Qed.

Lemma index_of_app_r (name : string) (a b : list string) :
  ~ In name a -> index_of name (a ++ b) = List.length a + index_of name b.
Proof.
  induction a as [|c a IH]; cbn [index_of app List.length]; [reflexivity|].
  intros Hnot. destruct (String.eqb_spec c name) as [->|Hne].
  - exfalso; apply Hnot; left; reflexivity.
  - rewrite IH by (intros Hin; apply Hnot; right; exact Hin). reflexivity.
Qed.

Lemma column_concat (a b : table) (name : string) :
  rectangular a ->
  List.length (values a) = List.length (values b) ->
  column (concat a b) name
  = if str_in_list name (columns a) then column a name else column b name.
Proof.
  intros Ha Hrows. unfold column, concat; cbn [columns values].
  rewrite map_map, <- Hrows, Nat.max_id.
  destruct (str_in_list name (columns a)) eqn:Hin.
  - apply str_in_list_In in Hin.
    rewrite <- (map_seq_nth (fun row => nth (index_of name (columns a)) row NaN)
                  (values a) (repeat NaN (List.length (columns a)))).
    apply map_ext. intros i. rewrite index_of_app_l by exact Hin.
    apply app_nth1. fold (row_or_nan a i). rewrite row_or_nan_length by exact Ha.
    apply index_of_lt, Hin.
  - apply str_in_list_not_In in Hin. rewrite Hrows.
    rewrite <- (map_seq_nth (fun row => nth (index_of name (columns b)) row NaN)
                  (values b) (repeat NaN (List.length (columns b)))).
    apply map_ext. intros i. rewrite index_of_app_r by exact Hin.
    rewrite app_nth2; fold (row_or_nan a i); rewrite row_or_nan_length by exact Ha;
      [|lia].
    f_equal. lia.
Qed.

(** What holds of the output of every loader, and of the concatenation of
    two tables of which it holds, holds of the assembled table, unless no
    loader ran. *)
Lemma run_loaders_invariant (P : table -> Prop) (load : string -> result table) :
  (forall category sub, load category = Ok sub -> P sub) ->
  (forall a b, P a -> P b -> P (concat a b)) ->
  forall categories confounds out,
    confounds = empty_frame \/ P confounds ->
    run_loaders load categories confounds = Ok out ->
    (categories = [] /\ out = confounds) \/ P out.
Proof.
  intros Hload Hconcat categories.
  induction categories as [|category rest IH]; intros confounds out Hacc;
    cbn [run_loaders].
  - intros Heq; injection Heq as <-. left; split; reflexivity.
  - intros Hrun. apply bind_Ok_inv in Hrun as (sub & Hsub & Hrun).
    assert (Hnext : P (concat confounds sub)).
    { destruct Hacc as [-> | Hacc].
      - rewrite concat_empty_l. apply (Hload _ _ Hsub).
      - apply Hconcat; [exact Hacc | apply (Hload _ _ Hsub)]. }
    destruct (IH _ _ (or_intror Hnext) Hrun) as [(_ & ->) | Hout];
      right; assumption.
Qed.

Lemma loader_plain (df : table) (motion : string) (pca_motion : Q)
    (wm_csf global_signal category : string) :
  ~ ((0 < pca_motion)%Q /\ (pca_motion < 1)%Q) ->
  loader df motion pca_motion wm_csf global_signal category
  = if category =? "high_pass"
    then match matching "cosine" (columns df) with
         | [] => Raise (KeyNotFound "cosine")
         | found => getitem df found
         end
    else (_check_params df (selected_names df motion wm_csf global_signal category) ;;;
          getitem df (selected_names df motion wm_csf global_signal category)).
Proof.
  intros Hout. unfold loader, selected_names.
  destruct (category =? "motion") eqn:Hm.
  - apply String.eqb_eq in Hm; subst category. cbn [String.eqb Ascii.eqb Bool.eqb].
    apply load_motion_plain, Hout.
  - destruct (category =? "high_pass"); [apply load_high_pass_unfold|].
    destruct (category =? "wm_csf"); reflexivity.
Qed.

(** Without reduction, what a loader returns is a selection of columns of
    the table. *)
Lemma loader_plain_Ok (df : table) (motion : string) (pca_motion : Q)
    (wm_csf global_signal category : string) (sub : table) :
  ~ ((0 < pca_motion)%Q /\ (pca_motion < 1)%Q) ->
  loader df motion pca_motion wm_csf global_signal category = Ok sub ->
  Forall (fun name => In name (columns df))
         (selected_names df motion wm_csf global_signal category)
  /\ getitem df (selected_names df motion wm_csf global_signal category) = Ok sub.
Proof.
  intros Hout. rewrite (loader_plain df motion wm_csf global_signal category Hout).
  unfold selected_names.
  destruct (category =? "motion") eqn:Hm.
  - apply String.eqb_eq in Hm; subst category. cbn [String.eqb Ascii.eqb Bool.eqb].
    intros Hsub. apply bind_Ok_inv in Hsub as ([] & Hcheck & Hsub).
    split; [apply check_params_Ok_inv, Hcheck | exact Hsub].
  - destruct (category =? "high_pass").
    + destruct (matching "cosine" (columns df)) as [|name found] eqn:Hfound;
        [discriminate|].
      rewrite <- Hfound. intros Hsub; split; [apply matching_incl | exact Hsub].
    + intros Hsub. apply bind_Ok_inv in Hsub as ([] & Hcheck & Hsub).
      split; [apply check_params_Ok_inv, Hcheck | exact Hsub].
Qed.

(** X12. Without reduction, the table the assembler returns is rectangular
    (every row has one cell per column); it has as many rows as the input
    table when the strategy names a category, and it is the empty table, with
    no row, when the strategy names none. *)
Theorem load_confounds_single_shape (confounds_raw : input)
    (strategy : strategy_arg) (motion : string) (pca_motion : Q)
    (wm_csf global_signal : string) (df : table) (resolved : list string)
    (out : table) :
  ~ ((0 < pca_motion)%Q /\ (pca_motion < 1)%Q) ->
  _confounds2df confounds_raw = Ok df ->
  _sanitize_strategy strategy = Ok resolved ->
  _load_confounds_single confounds_raw strategy motion pca_motion
    wm_csf global_signal = Ok out ->
  rectangular out
  /\ (resolved = [] -> out = empty_frame)
  /\ (resolved <> [] -> List.length (values out) = List.length (values df)).
Proof.
  intros Hplain Hdf Hresolved. rewrite load_confounds_single_run, Hdf, Hresolved.
  cbn [bind]. intros Hrun.
  destruct (run_loaders_invariant
              (fun t => rectangular t
                        /\ List.length (values t) = List.length (values df))
              (loader df motion pca_motion wm_csf global_signal))
    with (categories := invoked resolved) (confounds := @empty_frame value)
         (out := out) as [(Hnone & ->) | (Hrect & Hrows)].
  - intros category sub Hsub.
    apply (loader_plain_Ok _ _ _ _ _ Hplain) in Hsub as (_ & Hsub).
    apply (getitem_shape _ _ Hsub).
  - intros a b (Ha & Hra) (Hb & Hrb). apply concat_shape; assumption.
  - left; reflexivity.
  - exact Hrun.
  - split; [constructor|]. split; [reflexivity|].
    intros Hsome. exfalso.
    destruct resolved as [|category rest]; [congruence|].
    assert (Hin : In category (invoked (category :: rest))).
    { apply invoked_In. split; [left; reflexivity|].
      pose proof (sanitize_strategy_supported strategy Hresolved) as Hsup.
      inversion Hsup; assumption. }
    rewrite Hnone in Hin; destruct Hin.
  - split; [exact Hrect|]. split; [|intros _; exact Hrows].
    intros ->. unfold invoked in Hrun; cbn in Hrun. injection Hrun as <-. reflexivity.
Qed.

Lemma run_loaders_all_Ok (load : string -> result table)
    (categories : list string) (confounds : table) :
  Forall (fun c => exists sub, load c = Ok sub) categories ->
  exists out, run_loaders load categories confounds = Ok out.
Proof.
  intros Hall; revert confounds;
    induction Hall as [|c rest (sub & Hc) _ IH]; intros confounds;
    cbn [run_loaders].
  - eexists; reflexivity.
  - rewrite Hc; cbn [bind]. apply IH.
Qed.

(** X13. Without reduction and on a table whose labels are pairwise
    distinct, the columns of the assembled table are, category by category
    in canonical order, the expanded motion names, the names that contain
    "cosine" in the table's order, the expanded tissue names and the
    expanded global-signal names; and under each of these names the
    assembled table has the cells the input table has under it. *)
Theorem load_confounds_single_selection (confounds_raw : input)
    (strategy : strategy_arg) (motion : string) (pca_motion : Q)
    (wm_csf global_signal : string) (df : table) (resolved : list string)
    (out : table) :
  NoDup (columns df) ->
  ~ ((0 < pca_motion)%Q /\ (pca_motion < 1)%Q) ->
  _confounds2df confounds_raw = Ok df ->
  _sanitize_strategy strategy = Ok resolved ->
  _load_confounds_single confounds_raw strategy motion pca_motion
    wm_csf global_signal = Ok out ->
  columns out
  = flat_map (selected_names df motion wm_csf global_signal)
             (filter (fun c => str_in_list c resolved)
                     ["motion"; "high_pass"; "wm_csf"; "global"])
  /\ forall name, In name (columns out) -> column out name = column df name.
Proof.
  intros Hnd Hplain Hdf Hresolved.
  rewrite load_confounds_single_run, Hdf, Hresolved. cbn [bind]. intros Hrun.
  assert (Hsub : forall category sub,
             loader df motion pca_motion wm_csf global_signal category = Ok sub ->
             columns sub = selected_names df motion wm_csf global_signal category
             /\ rectangular sub
             /\ List.length (values sub) = List.length (values df)
             /\ same_cells df sub).
  { intros category sub Hsub.
    apply (loader_plain_Ok _ _ _ _ _ Hplain) in Hsub as (Hin & Hsub).
    destruct (getitem_unique df Hnd Hin) as (sub' & Hsub' & Hcols & _ & Hcells).
    rewrite Hsub in Hsub'. injection Hsub' as <-.
    destruct (getitem_shape _ _ Hsub) as (Hrect & Hrows).
    repeat split; try assumption.
    intros name Hname. apply Hcells. rewrite <- Hcols; exact Hname. }
  split.
  - apply run_loaders_Forall2 in Hrun as (subs & Hsubs & ->).
    rewrite columns_fold_concat.
    change (filter (fun c => str_in_list c resolved)
                   ["motion"; "high_pass"; "wm_csf"; "global"])
      with (invoked resolved).
    change (columns empty_frame ++ flat_map (@columns value string) subs)
      with (flat_map (@columns value string) subs).
    revert Hsubs. generalize (invoked resolved) as categories.
    intros categories Hsubs.
    induction Hsubs as [|category sub categories subs Hcat _ IH]; [reflexivity|].
    cbn [flat_map]. rewrite IH.
    destruct (Hsub _ _ Hcat) as (-> & _); reflexivity.
  - destruct (run_loaders_invariant
                (fun t => rectangular t
                          /\ List.length (values t) = List.length (values df)
                          /\ same_cells df t)
                (loader df motion pca_motion wm_csf global_signal))
      with (categories := invoked resolved) (confounds := @empty_frame value)
           (out := out) as [(_ & ->) | (_ & _ & Hcells)].
    + intros category sub Hcat. apply (Hsub _ _ Hcat).
    + intros a b (Ha & Hra & Hca) (Hb & Hrb & Hcb).
      destruct (concat_shape Ha Hb Hra Hrb) as (Hrect & Hrows).
      split; [exact Hrect|]. split; [exact Hrows|].
      intros name Hname. rewrite column_concat by (assumption || congruence).
      destruct (str_in_list name (columns a)) eqn:Hin.
      * apply Hca, str_in_list_In, Hin.
      * apply Hcb. cbn [concat columns] in Hname.
        apply in_app_or in Hname as [Hname | Hname]; [|exact Hname].
        apply str_in_list_In in Hname; congruence.
    + left; reflexivity.
    + exact Hrun.
    + intros name [].
    + exact Hcells.
Qed.

Lemma Forall2_In_l {A B : Type} (R : A -> B -> Prop) (l : list A)
    (l' : list B) (x : A) :
  Forall2 R l l' -> In x l -> exists y, R x y.
Proof.
  induction 1 as [|a b l l' Hab _ IH]; intros Hin; [destruct Hin|].
  destruct Hin as [<-|Hin]; [exists b; exact Hab | apply IH, Hin].
Qed.

(** X14. Without reduction, the assembler returns a table exactly when, for
    every category of the strategy, the names its loader selects label
    columns of the input table and, for the high-pass category, some column
    name contains "cosine". *)
Theorem load_confounds_single_returns_iff (confounds_raw : input)
    (strategy : strategy_arg) (motion : string) (pca_motion : Q)
    (wm_csf global_signal : string) (df : table) (resolved : list string) :
  ~ ((0 < pca_motion)%Q /\ (pca_motion < 1)%Q) ->
  _confounds2df confounds_raw = Ok df ->
  _sanitize_strategy strategy = Ok resolved ->
  (exists out,
     _load_confounds_single confounds_raw strategy motion pca_motion
       wm_csf global_signal = Ok out)
  <-> forall category,
        In category resolved ->
        Forall (fun name => In name (columns df))
               (selected_names df motion wm_csf global_signal category)
        /\ (category = "high_pass" ->
            filter (str_in "cosine") (columns df) <> []).
Proof.
  intros Hplain Hdf Hresolved.
  rewrite load_confounds_single_run, Hdf, Hresolved. cbn [bind].
  pose proof (sanitize_strategy_supported strategy Hresolved) as Hsup.
  rewrite Forall_forall in Hsup.
  split.
  - intros (out & Hrun) category Hin.
    apply run_loaders_Forall2 in Hrun as (subs & Hsubs & _).
    assert (Hinv : In category (invoked resolved))
      by (apply invoked_In; split; [exact Hin | apply Hsup, Hin]).
    destruct (Forall2_In_l category Hsubs Hinv) as (sub & Hcat).
    split.
    + apply (loader_plain_Ok _ _ _ _ _ Hplain Hcat).
    + intros ->. rewrite (loader_plain df motion wm_csf global_signal _ Hplain) in Hcat.
      cbn [String.eqb Ascii.eqb Bool.eqb] in Hcat.
      fold (matching "cosine" (columns df)).
      destruct (matching "cosine" (columns df)); [discriminate Hcat | discriminate].
  - intros Hall. apply run_loaders_all_Ok. apply Forall_forall.
    intros category Hinv. apply invoked_In in Hinv as (Hin & _).
    destruct (Hall category Hin) as (Hnames & Hcos).
    rewrite (loader_plain df motion wm_csf global_signal category Hplain).
    destruct (String.eqb_spec category "high_pass") as [->|Hne].
    + specialize (Hcos eq_refl). fold (matching "cosine" (columns df)) in Hcos.
      destruct (matching "cosine" (columns df)) as [|name found] eqn:Hm; [congruence|].
      rewrite <- Hm, getitem_present by apply matching_incl.
      eexists; reflexivity.
    + rewrite check_params_present, getitem_present by exact Hnames.
      eexists; reflexivity.
Qed.

(** ** The labels of the components *)

(** [int(str(n)) == n]. *)
Lemma nat_of_str_of_nat (n : nat) :
  option_map Nat.of_uint (NilZero.uint_of_string (str_of_nat n)) = Some n.
Proof.
  unfold str_of_nat.
  destruct (Nat.to_uint n) eqn:E;
    [rewrite NilZero.usu_nil | rewrite NilZero.usu by discriminate ..];
    cbn [option_map]; f_equal;
    rewrite <- (DecimalNat.Unsigned.of_to n), E; reflexivity.
Qed.

Lemma str_of_nat_inj (a b : nat) : str_of_nat a = str_of_nat b -> a = b.
Proof.
  intros Heq. pose proof (nat_of_str_of_nat a) as Ha.
  rewrite Heq, nat_of_str_of_nat in Ha. injection Ha as ->; reflexivity.
Qed.

Lemma NoDup_map_inj {A B : Type} (f : A -> B) (l : list A) :
  (forall x y, f x = f y -> x = y) -> NoDup l -> NoDup (map f l).
Proof.
  intros Hinj; induction 1 as [|x l Hx _ IH]; cbn [map]; constructor; [|exact IH].
  intros Hin. apply in_map_iff in Hin as (y & Hy & Hin).
  apply Hinj in Hy; subst y; contradiction.
Qed.

(** X15. When [_pca_motion] returns, the decomposition was called on the
    rows of the motion table that have no missing value, and on nothing
    else; the table returned holds the decomposition's output, and its
    columns are labelled [motion_pca_1] to [motion_pca_K], K being the
    width of that output: labels that are pairwise distinct and all start
    with "motion_pca_". *)
Theorem pca_motion_labels (motion : table) (n_components : Q) (out : table) :
  _pca_motion motion n_components = Ok out ->
  exists X transformed,
    fit_transform n_components X = Ok transformed
    /\ n_columns X = List.length (columns motion)
    /\ array X = filter (forallb (@notna value)) (values motion)
    /\ Forall (fun row => Forall (fun c => c <> NaN) row) (array X)
    /\ values out = array transformed
    /\ columns out
       = map (fun k => ("motion_pca_" ++ str_of_nat k)%string)
             (seq 1 (n_columns transformed))
    /\ NoDup (columns out)
    /\ Forall (fun name => startswith "motion_pca_" name = true) (columns out).
Proof.
  rewrite pca_motion_unfold. intros Hout.
  apply bind_Ok_inv in Hout as (transformed & Hfit & Hout). injection Hout as <-.
  eexists; exists transformed. split; [exact Hfit|]. cbn [n_columns array columns values].
  repeat split.
  - apply Forall_forall. intros row Hrow. apply filter_In in Hrow as (_ & Hrow).
    apply Forall_forall. intros c Hc.
    rewrite forallb_forall in Hrow. specialize (Hrow c Hc).
    destruct c; [discriminate | discriminate Hrow].
  - apply NoDup_map_inj; [|apply seq_NoDup].
    intros a b Heq. apply str_of_nat_inj.
    cbn [String.append] in Heq. injection Heq as Heq; exact Heq.
  - apply Forall_forall. intros name Hname.
    apply in_map_iff in Hname as (k & <- & _).
    apply startswith_spec. eexists; reflexivity.
Qed.

(** X16. When [_find_confounds] returns on a list of keywords, the names it
    returns are exactly the column names of the table that contain one of
    the keywords, and every keyword has one of the returned names that
    contains it; so the result is empty only for the empty list of
    keywords. *)
Theorem find_confounds_members (confounds_raw : table) (keys found : list string) :
  _find_confounds confounds_raw (KeywordList keys) = Ok found ->
  (forall name,
     In name found
     <-> In name (columns confounds_raw)
         /\ exists key, In key keys /\ str_in key name = true)
  /\ (forall key,
        In key keys -> exists name, In name found /\ str_in key name = true)
  /\ (found = [] <-> keys = []).
Proof.
  unfold _find_confounds. intros Hfound.
  destruct (keywords_split (columns confounds_raw) keys)
    as [Hall | (before & key & after & -> & Hbefore & Hkey)].
  - rewrite find_loop_all in Hfound by exact Hall.
    injection Hfound as <-. cbn [app].
    assert (Hmem : forall name,
               In name (flat_map (fun key => matching key (columns confounds_raw)) keys)
               <-> In name (columns confounds_raw)
                   /\ exists key, In key keys /\ str_in key name = true).
    { intros name. rewrite in_flat_map. unfold matching. split.
      - intros (key & Hkey & Hname). apply filter_In in Hname as (Hin & Hmatch).
        split; [exact Hin | exists key; split; assumption].
      - intros (Hin & key & Hkey & Hmatch).
        exists key; split; [exact Hkey | apply filter_In; split; assumption]. }
    assert (Hevery : forall key,
               In key keys ->
               exists name,
                 In name (flat_map (fun key => matching key (columns confounds_raw)) keys)
                 /\ str_in key name = true).
    { intros key Hkey. rewrite Forall_forall in Hall. specialize (Hall key Hkey).
      destruct (matching key (columns confounds_raw)) as [|name rest] eqn:Hm;
        [congruence|].
      assert (Hname : In name (matching key (columns confounds_raw)))
        by (rewrite Hm; left; reflexivity).
      exists name; split.
      - apply in_flat_map; exists key; split; assumption.
      - apply filter_In in Hname as (_ & Hmatch); exact Hmatch. }
    split; [exact Hmem|]. split; [exact Hevery|].
    split.
    + intros Hnil. destruct keys as [|key keys]; [reflexivity|].
      destruct (Hevery key (or_introl eq_refl)) as (name & Hname & _).
      rewrite Hnil in Hname; destruct Hname.
    + intros ->; reflexivity.
  - rewrite find_loop_first in Hfound by assumption. discriminate.
Qed.

End Properties.

(* ================================================================== *)
(** * Part III. The properties at concrete inputs *)
(* ================================================================== *)

(** C2, witness: the custom list [["global"; "motion"]] on the demo table
    runs the motion loader, then the global-signal loader. *)
Lemma load_confounds_single_canonical_witness :
  _load_confounds_single (Frame demo_table) (StrategyList ["global"; "motion"])
    "basic" 1%Q "basic" "basic"
  = run_loaders (loader demo_table "basic" 1%Q "basic" "basic")
                ["motion"; "global"] empty_frame.
Proof.
  apply (proj1 (load_confounds_single_canonical
                  (Frame demo_table) (StrategyList ["global"; "motion"])
                  "basic" 1%Q "basic" "basic"
                  (df := demo_table) (resolved := ["global"; "motion"])
                  eq_refl eq_refl)).
Defined.

(** C4, witness: the demo table under "basic" with [pca_motion = 1/2]. *)
Lemma load_motion_reduction_witness :
  exists selected,
    getitem demo_table (_add_suffix motion_basic "basic") = Ok selected
    /\ _load_motion demo_table "basic" (1 # 2)%Q = _pca_motion selected (1 # 2)%Q
    /\ _load_motion demo_table "basic" 1%Q = Ok selected.
Proof.
  destruct (load_motion_reduction demo_table "basic" (1 # 2)%Q)
    as (selected & Hget & Hin & _ & _ & Hone & _).
  - repeat (constructor; [simpl; tauto|]). constructor.
  - exists selected. split; [exact Hget|]. split; [|exact Hone].
    apply Hin. split; reflexivity.
Defined.

(** C5, witness: the high-pass loader on the cosine table, and two
    overlapping keywords, which return the cosine columns twice. *)
Lemma find_confounds_spec_witness :
  (exists out, _load_high_pass cosine_table = Ok out
               /\ columns out = ["cosine00"; "cosine01"])
  /\ _find_confounds cosine_table (KeywordList ["cos"; "cosine"])
     = Ok ["cosine00"; "cosine01"; "cosine00"; "cosine01"]
  /\ _find_confounds cosine_table (KeywordList ["cosine"; "csf"; "rot"])
     = Raise (KeyNotFound "csf").
Proof.
  destruct (find_confounds_spec cosine_table) as (Hall & Hfirst & _ & _ & Hhigh).
  split; [|split].
  - destruct (Hhigh eq_refl) as (out & Hout & Hcols & _).
    exists out; split; assumption.
  - apply (Hall ["cos"; "cosine"]).
    repeat (constructor; [simpl; discriminate|]). constructor.
  - apply (Hfirst ["cosine"] "csf" ["rot"]).
    + repeat (constructor; [simpl; discriminate|]). constructor.
    + reflexivity.
Defined.

(** C6, witness: three inputs, two tables and a path, give three tables. *)
Lemma load_confounds_cardinality_witness :
  exists dfs,
    load_confounds
      (Many [Frame demo_table; Path "sub-01_desc-confounds_regressors.tsv";
             Frame demo_table])
      (StrategyStr "minimal") "basic" 1%Q "basic" "basic"
    = Ok (FrameList dfs)
    /\ List.length dfs = 3.
Proof.
  eexists; split.
  - apply (proj1 (load_confounds_cardinality (StrategyStr "minimal") "basic" 1%Q
                    "basic" "basic")).
    eapply Forall2_cons; [vm_compute; reflexivity|].
    eapply Forall2_cons; [vm_compute; reflexivity|].
    eapply Forall2_cons; [vm_compute; reflexivity|].
    apply Forall2_nil.
  - reflexivity.
Defined.

(** C7, witness: the basic motion table under "full" and under "basic". *)
Lemma check_params_first_missing_witness :
  _load_motion basic_motion_table "full" 1%Q
  = Raise (ParamNotFound "trans_x_derivative1")
  /\ exists out,
       _load_motion basic_motion_table "basic" 1%Q = Ok out
       /\ columns out = ["trans_x"; "trans_y"; "trans_z"; "rot_x"; "rot_y"; "rot_z"]
       /\ column out "rot_x" = column basic_motion_table "rot_x".
Proof.
  destruct (check_params_first_missing basic_motion_table)
    as (_ & _ & _ & _ & _ & Hbasic).
  destruct (Hbasic (Permutation_refl _) 1%Q) as (Hfull & Hplain).
  split; [exact Hfull|].
  destruct Hplain as (out & Hout & Hcols & _ & Hcells).
  - intros (_ & Hlt). vm_compute in Hlt. discriminate Hlt.
  - exists out. split; [exact Hout|]. split; [exact Hcols|].
    apply Hcells. simpl; tauto.
Defined.

(** C8, witness: a list of keywords is matched, [None] is refused. *)
Lemma find_confounds_list_only_witness :
  _find_confounds cosine_table (keywords_arg_of KeywordsOfNone)
  = Raise KeywordsNotList
  /\ _find_confounds cosine_table (keywords_arg_of (KeywordsOfList ["cosine"]))
     = find_loop (columns cosine_table) ["cosine"] [].
Proof.
  destruct (find_confounds_list_only cosine_table) as (Htype & _ & _ & _ & Hlist).
  split.
  - apply (Htype KeywordsOfNone). reflexivity.
  - apply (Hlist ["cosine"]).
Defined.

(** C8, counterexample: the tuple [("cosine",)] is a sequence of keywords,
    and on the cosine table it is refused where the list [["cosine"]] is
    matched; so the error is not raised only for what is no sequence. *)
Lemma find_confounds_refuses_tuple :
  is_sequence (KeywordsOfTuple ["cosine"]) = true
  /\ _find_confounds cosine_table (keywords_arg_of (KeywordsOfTuple ["cosine"]))
     = Raise KeywordsNotList
  /\ _find_confounds cosine_table (keywords_arg_of (KeywordsOfList ["cosine"]))
     = Ok ["cosine00"; "cosine01"]
  /\ ~ (forall v,
          _find_confounds cosine_table (keywords_arg_of v) = Raise KeywordsNotList
          <-> is_sequence v = false).
Proof.
  split; [reflexivity|]. split; [reflexivity|]. split; [reflexivity|].
  intros Hclaim.
  pose proof (proj1 (Hclaim (KeywordsOfTuple ["cosine"])) eq_refl) as Hseq.
  discriminate Hseq.
Qed.

(** C9, witness: a call on the demo table, held at reference 0 of a store
    with nothing else, leaves it where and as it was. *)
Lemma load_confounds_frame_witness :
  exists fresh,
    snd (Store.load_confounds (Store.Single (Store.Frame 0))
           (StrategyStr "minimal") "basic" (1 # 2)%Q "basic" "basic"
           [Store.Named demo_table])
    = [Store.Named demo_table] ++ fresh.
Proof.
  destruct (load_confounds_frame [Store.Named demo_table]
              (Store.Single (Store.Frame 0)) (StrategyStr "minimal") "basic"
              (1 # 2)%Q "basic" "basic"
              (confounds_raw' := Single (Frame demo_table)) eq_refl)
    as (fresh & Hfresh & _).
  exists fresh; exact Hfresh.
Defined.

(** C10, witness: [["motion"; "motion"]] gives what [["motion"]] gives. *)
Lemma load_confounds_single_duplicates_witness :
  _load_confounds_single (Frame demo_table) (StrategyList ["motion"; "motion"])
    "basic" 1%Q "basic" "basic"
  = _load_confounds_single (Frame demo_table) (StrategyList ["motion"])
      "basic" 1%Q "basic" "basic".
Proof.
  destruct (load_confounds_single_duplicates (Frame demo_table)
              (confs := ["motion"; "motion"]) "basic" 1%Q "basic" "basic")
    as (_ & Hnodup & _).
  - repeat (constructor; [simpl; tauto|]). constructor.
  - exact Hnodup.
Defined.

(** X1, witness: the confounds file beside a preprocessed image. *)
Lemma confounds2df_sibling_file_witness :
  _confounds2df (Path "sub-01_space-MNI_desc-preproc_bold.nii.gz")
  = Ok demo_table.
Proof.
  exact (proj1 (confounds2df_sibling_file "sub-01" "MNI_desc-preproc_bold.nii.gz")
           eq_refl eq_refl eq_refl).
Defined.

(** X2, witness: an image path without "space-". *)
Lemma confounds2df_no_space_witness :
  @_confounds2df Z demo (Path "sub-01_bold.nii.gz") = Raise IndexError.
Proof. apply confounds2df_no_space; reflexivity. Defined.

(** X3, witness: the second of three inputs is a file that does not exist. *)
Lemma load_confounds_fail_fast_witness :
  load_confounds
    (Many [Frame demo_table; Path "missing.tsv"; Frame demo_table])
    (StrategyStr "minimal") "basic" 1%Q "basic" "basic"
  = Raise (ExternalError "No such file or directory").
Proof.
  apply (proj1 (load_confounds_fail_fast (StrategyStr "minimal") "basic" 1%Q
                  "basic" "basic")
           [Frame demo_table] (Path "missing.tsv") [Frame demo_table]).
  - constructor; [eexists; vm_compute; reflexivity | constructor].
  - reflexivity.
Defined.

(** X4, witness: the demo table alone and in a list of one. *)
Lemma load_confounds_single_vs_list_witness :
  exists df,
    load_confounds (Many [Frame demo_table]) (StrategyStr "minimal")
      "basic" 1%Q "basic" "basic" = Ok (FrameList [df]).
Proof.
  destruct (load_confounds (Single (Frame demo_table)) (StrategyStr "minimal")
              "basic" 1%Q "basic" "basic") as [[df|dfs]|e] eqn:Hone;
    try (vm_compute in Hone; discriminate Hone).
  exists df.
  apply (proj1 (load_confounds_single_vs_list (Frame demo_table)
                  (StrategyStr "minimal") "basic" 1%Q "basic" "basic") df).
  exact Hone.
Defined.

(** X5, witness: the mode "Full", with a capital, is no mode. *)
Lemma add_suffix_unknown_mode_witness :
  _add_suffix ["csf"; "white_matter"] "Full" = ["csf"; "white_matter"].
Proof.
  apply (proj1 (add_suffix_unknown_mode (model := "Full")
                  ltac:(discriminate) ltac:(discriminate) ltac:(discriminate))).
Defined.

(** X6, witness: the cosine table has no global signal. *)
Lemma check_params_base_first_witness :
  _load_global cosine_table "full" = Raise (ParamNotFound "global_signal").
Proof.
  destruct (check_params_base_first cosine_table "full") as (_ & Hglobal & _).
  apply Hglobal. simpl. intros [E|[E|[E|[]]]]; discriminate E.
Defined.

(** X7, witness: the tissue table, complete for "full", under "power2". *)
Lemma check_params_full_covers_witness :
  exists out, _load_wm_csf tissue_table "power2" = Ok out.
Proof.
  destruct (check_params_full_covers tissue_table) as (_ & Htissue & _).
  apply Htissue. eexists; vm_compute; reflexivity.
Defined.

(** X8, witness: the cosine table has cosine columns, the basic motion
    table has none. *)
Lemma load_high_pass_spec_witness :
  (exists out, _load_high_pass cosine_table = Ok out
               /\ List.length (values out) = 2)
  /\ _load_high_pass basic_motion_table = Raise (KeyNotFound "cosine").
Proof.
  split.
  - destruct (proj2 (load_high_pass_spec cosine_table)) as (out & Hout & Hrows & _).
    + simpl; discriminate.
    + exists out; split; [exact Hout | exact Hrows].
  - apply (proj1 (load_high_pass_spec basic_motion_table)). reflexivity.
Defined.

(** X9, witness: the preset "minimal" on the demo table. *)
Lemma preset_as_custom_list_witness :
  _load_confounds_single (Frame demo_table) (StrategyStr "minimal")
    "basic" 1%Q "basic" "basic"
  = _load_confounds_single (Frame demo_table)
      (StrategyList ["motion"; "high_pass"; "wm_csf"])
      "basic" 1%Q "basic" "basic".
Proof.
  apply (proj2 (preset_as_custom_list (Frame demo_table) (StrategyStr "minimal")
                  (resolved := ["motion"; "high_pass"; "wm_csf"])
                  "basic" 1%Q "basic" "basic" eq_refl)).
Defined.

(** X10, witness: a missing file is reported before an unknown preset, and
    an unknown preset before the columns the table lacks. *)
Lemma load_confounds_single_error_order_witness :
  _load_confounds_single (Path "missing.tsv") (StrategyStr "bogus")
    "basic" 1%Q "basic" "basic"
  = Raise (ExternalError "No such file or directory")
  /\ _load_confounds_single (Frame cosine_table) (StrategyStr "bogus")
       "basic" 1%Q "basic" "basic"
     = Raise (StrategyNotSupported "bogus").
Proof.
  split.
  - apply (proj1 (load_confounds_single_error_order (Path "missing.tsv")
                    (StrategyStr "bogus") "basic" 1%Q "basic" "basic"
                    (ExternalError "No such file or directory"))).
    reflexivity.
  - apply (proj1 (proj2 (load_confounds_single_error_order (Frame cosine_table)
                           (StrategyStr "bogus") "basic" 1%Q "basic" "basic"
                           (StrategyNotSupported "bogus")))
             cosine_table); reflexivity.
Defined.

(** X11, witness: the basic motion table under "minimal" has no cosine
    column. *)
Lemma load_confounds_single_exceptions_witness :
  (exists path,
     Frame basic_motion_table = Path path
     /\ (KeyNotFound "cosine" = IndexError
         \/ exists path', read_csv path' = Raise (KeyNotFound "cosine")))
  \/ exists df,
       _confounds2df (Frame basic_motion_table) = Ok df
       /\ (_sanitize_strategy (StrategyStr "minimal") = Raise (KeyNotFound "cosine")
           \/ (exists par, KeyNotFound "cosine" = ParamNotFound par
                           /\ ~ In par (columns df))
           \/ (KeyNotFound "cosine" = KeyNotFound "cosine"
               /\ filter (str_in "cosine") (columns df) = [])
           \/ (((0 < 1)%Q /\ (1 < 1)%Q)
               /\ exists X, fit_transform 1%Q X = Raise (KeyNotFound "cosine"))).
Proof.
  apply (load_confounds_single_exceptions (Frame basic_motion_table)
           (StrategyStr "minimal") "basic" 1%Q "basic" "basic").
  reflexivity.
Defined.

(** X12, witness: the demo table under "minimal", "basic". *)
Lemma load_confounds_single_shape_witness :
  exists out,
    _load_confounds_single (Frame demo_table) (StrategyStr "minimal")
      "basic" 1%Q "basic" "basic" = Ok out
    /\ rectangular out
    /\ List.length (values out) = 3.
Proof.
  destruct (_load_confounds_single (Frame demo_table) (StrategyStr "minimal")
              "basic" 1%Q "basic" "basic") as [out|e] eqn:Hout;
    [|vm_compute in Hout; discriminate Hout].
  exists out. split; [reflexivity|].
  destruct (load_confounds_single_shape (Frame demo_table) (StrategyStr "minimal")
              "basic" (pca_motion := 1%Q) "basic" "basic" (df := demo_table)
              (resolved := ["motion"; "high_pass"; "wm_csf"]) (out := out))
    as (Hrect & _ & Hrows).
  - intros (_ & Hlt); vm_compute in Hlt; discriminate Hlt.
  - reflexivity.
  - reflexivity.
  - exact Hout.
  - split; [exact Hrect | apply Hrows; discriminate].
Defined.

Lemma demo_table_NoDup : NoDup (columns demo_table).
Proof.
  cbn [columns demo_table].
  repeat (constructor;
          [simpl; intros Hin;
           repeat (destruct Hin as [Hin|Hin]; [discriminate Hin|]); exact Hin|]).
  constructor.
Qed.

(** X13, witness: the demo table under [["wm_csf"; "motion"]], "basic". *)
Lemma load_confounds_single_selection_witness :
  exists out,
    _load_confounds_single (Frame demo_table) (StrategyList ["wm_csf"; "motion"])
      "basic" 1%Q "basic" "basic" = Ok out
    /\ columns out = ["trans_x"; "trans_y"; "trans_z"; "rot_x"; "rot_y"; "rot_z";
                      "csf"; "white_matter"]
    /\ column out "csf" = column demo_table "csf".
Proof.
  destruct (_load_confounds_single (Frame demo_table)
              (StrategyList ["wm_csf"; "motion"]) "basic" 1%Q "basic" "basic")
    as [out|e] eqn:Hout; [|vm_compute in Hout; discriminate Hout].
  exists out. split; [reflexivity|].
  destruct (load_confounds_single_selection (Frame demo_table)
              (StrategyList ["wm_csf"; "motion"]) "basic" (pca_motion := 1%Q)
              "basic" "basic" (df := demo_table)
              (resolved := ["wm_csf"; "motion"]) (out := out))
    as (Hcols & Hcells).
  - exact demo_table_NoDup.
  - intros (_ & Hlt); vm_compute in Hlt; discriminate Hlt.
  - reflexivity.
  - reflexivity.
  - exact Hout.
  - split; [exact Hcols|]. apply Hcells. rewrite Hcols. simpl; tauto.
Defined.

(** X14, witness: the demo table has what "minimal" asks for under
    "basic". *)
Lemma load_confounds_single_returns_iff_witness :
  exists out,
    _load_confounds_single (Frame demo_table) (StrategyStr "minimal")
      "basic" 1%Q "basic" "basic" = Ok out.
Proof.
  apply (proj2 (load_confounds_single_returns_iff (Frame demo_table)
                  (StrategyStr "minimal") "basic" (pca_motion := 1%Q)
                  "basic" "basic" (df := demo_table)
                  (resolved := ["motion"; "high_pass"; "wm_csf"])
                  ltac:(intros (_ & Hlt); vm_compute in Hlt; discriminate Hlt)
                  eq_refl eq_refl)).
  intros category [<-|[<-|[<-|[]]]]; split;
    try (intros Heq; discriminate Heq);
    try (intros _; simpl; discriminate);
    cbn; repeat (constructor; [simpl; tauto|]); constructor.
Defined.

(** X15, witness: the demo table reduced by the test decomposition. *)
Lemma pca_motion_labels_witness :
  exists out,
    _pca_motion demo_table (1 # 2)%Q = Ok out
    /\ columns out = ["motion_pca_1"]
    /\ NoDup (columns out).
Proof.
  destruct (_pca_motion demo_table (1 # 2)%Q) as [out|e] eqn:Hout;
    [|vm_compute in Hout; discriminate Hout].
  exists out. split; [reflexivity|].
  destruct (pca_motion_labels demo_table (1 # 2)%Q Hout)
    as (X & transformed & Hfit & _ & _ & _ & _ & Hcols & Hnd & _).
  split; [|exact Hnd].
  vm_compute in Hout. injection Hout as <-. reflexivity.
Defined.

(** X16, witness: two keywords on the cosine table. *)
Lemma find_confounds_members_witness :
  exists name,
    In name ["cosine00"; "cosine01"; "trans_x"]
    /\ str_in "trans" name = true.
Proof.
  destruct (find_confounds_members cosine_table ["cos"; "trans"]
              (found := ["cosine00"; "cosine01"; "trans_x"]) eq_refl)
    as (_ & Hevery & _).
  apply (Hevery "trans"). simpl; tauto.
Defined.
